(** * csv2md: a shallow embedding of [csv2md.py] and its specification

    The development follows the layout of the Python module: text and
    the string primitives the formatter relies on, then
    [escape_markdown_chars], [convert_to_markdown_table] over a store of
    mutable row objects, and finally the loader, the writer, [convert]
    and [main] over an explicit world (file system, codecs, csv module)
    in a small state-and-exception monad. *)

From Stdlib Require Import String Ascii.
From Stdlib Require Import List NArith Arith Bool Lia.
Import ListNotations.

Set Implicit Arguments.

(* ================================================================== *)
(** * Part I: definitions                                              *)
(* ================================================================== *)

(** ** Text

    A Python [str] is a sequence of Unicode code points.  Code points
    are kept as [N]; nothing below depends on the upper bound
    [0x10FFFF]. *)

Definition char := N.
Definition text := list char.

(** ASCII literals, for readable statements. *)
Definition str (s : string) : text :=
  map N_of_ascii (list_ascii_of_string s).

Definition PIPE : char := 124%N.
Definition BACKSLASH : char := 92%N.
Definition SPACE : char := 32%N.
Definition LF : char := 10%N.
Definition CR : char := 13%N.

(** [str.isspace] on one code point, which is also what [\s] matches in
    a [str] pattern and what [str.strip()] removes: TAB..CR, FS..US,
    SPACE, NEL, NBSP, OGHAM SPACE MARK, EN QUAD..HAIR SPACE, LINE and
    PARAGRAPH SEPARATOR, NARROW NBSP, MEDIUM MATHEMATICAL SPACE,
    IDEOGRAPHIC SPACE. *)
Definition is_space (c : char) : bool :=
  ((9 <=? c) && (c <=? 13) || (28 <=? c) && (c <=? 32)
   || (c =? 133) || (c =? 160) || (c =? 5760)
   || (8192 <=? c) && (c <=? 8202)
   || (c =? 8232) || (c =? 8233) || (c =? 8239) || (c =? 8287)
   || (c =? 12288))%N.

Module Str.

(** [s.startswith(p)] *)
Fixpoint starts_with (p s : text) : bool :=
  match p, s with
  | [], _ => true
  | _ :: _, [] => false
  | a :: p', b :: s' => (a =? b)%N && starts_with p' s'
  end.

(** [s.replace(old, new)] for a non-empty [old]: scan from the left,
    every occurrence found is replaced and the scan resumes after it.
    [skip] counts the characters of a matched occurrence still to be
    passed over. *)
Fixpoint replace_from (old new : text) (skip : nat) (s : text) : text :=
  match s with
  | [] => []
  | c :: s' =>
      match skip with
      | S k => replace_from old new k s'
      | O =>
          if starts_with old s
          then new ++ replace_from old new (length old - 1) s'
          else c :: replace_from old new 0 s'
      end
  end.

Definition replace (old new s : text) : text := replace_from old new 0 s.

(** [re.sub(r'\s+', ' ', s)]: every maximal run of white space becomes
    one SPACE.  [in_run] records that the previous character belonged
    to the run being replaced. *)
Fixpoint sub_spaces (in_run : bool) (s : text) : text :=
  match s with
  | [] => []
  | c :: s' =>
      if is_space c
      then if in_run then sub_spaces true s' else SPACE :: sub_spaces true s'
      else c :: sub_spaces false s'
  end.

Definition re_sub_spaces (s : text) : text := sub_spaces false s.

(** [s.lstrip()], [s.rstrip()] and [s.strip()] *)
Fixpoint lstrip (s : text) : text :=
  match s with
  | [] => []
  | c :: s' => if is_space c then lstrip s' else s
  end.

Fixpoint rstrip (s : text) : text :=
  match s with
  | [] => []
  | c :: s' =>
      match rstrip s' with
      | [] => if is_space c then [] else [c]
      | r => c :: r
      end
  end.

Definition strip (s : text) : text := rstrip (lstrip s).

(** [sep.join(xs)] *)
Fixpoint join (sep : text) (xs : list text) : text :=
  match xs with
  | [] => []
  | x :: xs' =>
      match xs' with
      | [] => x
      | _ :: _ => x ++ sep ++ join sep xs'
      end
  end.

(** [s.split(sep)] for a non-empty [sep]; [cur] holds the field being
    read, most recent character first. *)
Fixpoint split_from (sep : text) (skip : nat) (cur : text) (s : text)
  : list text :=
  match s with
  | [] => [rev cur]
  | c :: s' =>
      match skip with
      | S k => split_from sep k cur s'
      | O =>
          if starts_with sep s
          then rev cur :: split_from sep (length sep - 1) [] s'
          else split_from sep 0 (c :: cur) s'
      end
  end.

Definition split (sep s : text) : list text := split_from sep 0 [] s.

(** [s.removeprefix(p)] and [s.removesuffix(p)] *)
Definition removeprefix (p s : text) : text :=
  if starts_with p s then skipn (length p) s else s.

Definition removesuffix (p s : text) : text :=
  if starts_with (rev p) (rev s) then firstn (length s - length p) s else s.

End Str.

(** ** The formatter *)

(** [CSV2MD.escape_markdown_chars].  Cells are text already (the csv
    reader yields [str] fields), so the [str(text)] coercion of a
    non-string argument has no counterpart here. *)
Definition escape_markdown_chars (t : text) : text :=
  let t := Str.replace [PIPE] [BACKSLASH; PIPE] t in
  let t := Str.replace [CR] [SPACE] (Str.replace [LF] [SPACE] t) in
  Str.strip (Str.re_sub_spaces t).

(** A row is a Python list of cells.  Rows are mutable objects shared
    between the caller and [convert_to_markdown_table]: the table is a
    list of references into a store of row objects. *)
Definition Row := list text.
Definition loc := nat.
Definition store := loc -> Row.

Definition update (s : store) (l : loc) (r : Row) : store :=
  fun l' => if Nat.eqb l' l then r else s l'.

(** ["| " + " | ".join(cells) + " |"] *)
Definition markdown_line (cells : list text) : text :=
  str "| " ++ Str.join (str " | ") cells ++ str " |".

(** [while len(row) < header_length: row.append("")], on the object at
    [l].  Each iteration lengthens the row by one, so [header_length]
    iterations always suffice ([pad_while_exit] below). *)
Fixpoint pad_while (fuel : nat) (s : store) (l : loc) (header_length : nat)
  : store :=
  match fuel with
  | O => s
  | S fuel' =>
      if length (s l) <? header_length
      then pad_while fuel' (update s l (s l ++ [[]])) l header_length
      else s
  end.

(** The loop [for row in rows[1:]] of [convert_to_markdown_table]; [h]
    is the reference [rows[0]], read again at every iteration as the
    source does. *)
Fixpoint data_lines (s : store) (h : loc) (rest : list loc)
  : list text * store :=
  match rest with
  | [] => ([], s)
  | l :: rest' =>
      let header_length := length (s h) in
      let s1 := pad_while header_length s l header_length in
      let row := firstn header_length (s1 l) in
      let escaped_row := map escape_markdown_chars row in
      let '(lines, s2) := data_lines s1 h rest' in
      (markdown_line escaped_row :: lines, s2)
  end.

(** The list [markdown_lines] built by [convert_to_markdown_table],
    with the store after the call. *)
Definition markdown_lines (s : store) (rows : list loc)
  : list text * store :=
  match rows with
  | [] => ([], s)
  | h :: rest =>
      let header := s h in
      let escaped_header := map escape_markdown_chars header in
      let separator := repeat (str "---") (length header) in
      let '(lines, s') := data_lines s h rest in
      (markdown_line escaped_header :: markdown_line separator :: lines, s')
  end.

(** [CSV2MD.convert_to_markdown_table]: the text returned and the store
    the caller sees afterwards. *)
Definition convert_to_markdown_table (s : store) (rows : list loc)
  : text * store :=
  match rows with
  | [] => ([], s)
  | _ :: _ =>
      let '(lines, s') := markdown_lines s rows in
      (Str.join [LF] lines, s')
  end.

(** A table held by value, allocated as fresh row objects [0, 1, ...]. *)
Definition alloc (rows : list Row) : store * list loc :=
  (fun l => nth l rows [], seq 0 (length rows)).

(** ** What the specification says, in its own words

    The definitions of this section do not come from the code: they
    restate the specification, and are compared with the code below. *)
Module Spec.

(** "Replace every literal pipe character with an escaped pipe." *)
Definition escape_pipes (t : text) : text :=
  flat_map (fun c => if (c =? PIPE)%N then [BACKSLASH; PIPE] else [c]) t.

(** "Replace every carriage-return and line-feed character with a
    single space." *)
Definition breaks_to_spaces (t : text) : text :=
  map (fun c => if ((c =? CR) || (c =? LF))%N then SPACE else c) t.

(** No white space at the front of [t]. *)
Definition starts_clean (t : text) : Prop :=
  match t with
  | [] => True
  | c :: _ => is_space c = false
  end.

(** "Collapse any run of one-or-more whitespace characters into a
    single space": [collapsed_to t r] reads [t] as an alternation of
    other characters, kept, and maximal runs of white space, each
    replaced by one SPACE. *)
Inductive collapsed_to : text -> text -> Prop :=
| collapsed_nil : collapsed_to [] []
| collapsed_char c t r :
    is_space c = false -> collapsed_to t r ->
    collapsed_to (c :: t) (c :: r)
| collapsed_run run t r :
    run <> [] -> forallb is_space run = true -> starts_clean t ->
    collapsed_to t r ->
    collapsed_to (run ++ t) (SPACE :: r).

(** "Trim leading/trailing whitespace": [r] is [t] without a white
    prefix and a white suffix, and has white space at neither end. *)
Definition stripped_to (t r : text) : Prop :=
  exists a b,
    t = a ++ r ++ b /\
    forallb is_space a = true /\ forallb is_space b = true /\
    starts_clean r /\ starts_clean (rev r).

(** "Pad with empty-string fields at the end until its length equals
    the header length, if shorter.  Truncate trailing fields beyond
    header length, if longer." *)
Definition normalize (header_length : nat) (row : Row) : Row :=
  if length row <? header_length
  then row ++ repeat [] (header_length - length row)
  else firstn header_length row.

(** The fields of an emitted line: the line "split on [" | "] after
    stripping the leading/trailing ["| "]/[" |"]". *)
Definition fields (line : text) : list text :=
  Str.split (str " | ")
    (Str.removesuffix (str " |") (Str.removeprefix (str "| ") line)).

End Spec.

(** ** Invariants used in the proofs *)

(** White space occurs in [s] only as single SPACE characters, never two
    in a row; [after_space] tells that the character before [s] is
    white. *)
Fixpoint tidy (after_space : bool) (s : text) : bool :=
  match s with
  | [] => true
  | c :: s' =>
      if is_space c
      then (c =? SPACE)%N && negb after_space && tidy true s'
      else tidy false s'
  end.

(** Every pipe of [s] stands right after a backslash; [after_backslash]
    tells that the character before [s] is one. *)
Fixpoint guarded (after_backslash : bool) (s : text) : bool :=
  match s with
  | [] => true
  | c :: s' =>
      (if (c =? PIPE)%N then after_backslash else true)
      && guarded (c =? BACKSLASH)%N s'
  end.

(** The row object once the padding loop is through with it. *)
Definition padded (header_length : nat) (row : Row) : Row :=
  row ++ repeat [] (header_length - length row).

(** The white space of a table cell: SPACE characters only, one at a
    time, between other characters. *)
Definition single_spaced (t : text) : Prop :=
  (forall c, In c t -> is_space c = true -> c = SPACE) /\
  (forall a c d b, t = a ++ c :: d :: b ->
                   is_space c = true -> is_space d = true -> False) /\
  Spec.starts_clean t /\ Spec.starts_clean (rev t).

(** ** The world outside the formatter

    The loader and the writer run library code: the file system, the
    text codecs and the [csv] module.  None of it belongs to the
    program, so it is a parameter of the model, one field per library
    operation the source calls. *)

Definition bytes := list Byte.byte.

Inductive encoding := utf_8 | shift_jis.

(** The exceptions the program raises or lets through; all of them are
    subclasses of [Exception]. *)
Inductive exn :=
| FileNotFoundError
| UnicodeDecodeError
| CsvError
| OSError.

Definition is_UnicodeDecodeError (e : exn) : bool :=
  match e with UnicodeDecodeError => true | _ => false end.

Record World := {
  (** the file at [self.input_dir / csv_filename]: [None] when
      [csv_path.exists()] is false *)
  input_file : text -> option bytes;
  (** [file.read(n)] on a file just opened with the encoding *)
  file_read : encoding -> bytes -> nat -> exn + text;
  (** [csv.Sniffer().sniff(sample).delimiter]; [None] when the sniffer
      raises [csv.Error] *)
  sniff_delimiter : text -> option char;
  (** [list(csv.reader(file, delimiter=d))] on the file opened with the
      encoding and rewound *)
  reader_rows : encoding -> bytes -> char -> exn + list Row;
  (** the csv parser on text already decoded; [None] for [csv.Error] *)
  csv_rows : char -> text -> option (list Row);
  (** [Path(csv_filename).stem] *)
  stem : text -> text;
  (** [self.output_dir / output_filename] *)
  output_path : text -> text;
  (** [self.output_dir.mkdir(parents=True, exist_ok=True)] succeeds *)
  mkdir_ok : bool;
  (** [open(output_path, 'w', encoding='utf-8')] succeeds: the file is
      created, or truncated if it exists *)
  writable : text -> bool;
  (** [file.write(markdown_content)] and the closing of the file
      succeed *)
  write_ok : text -> text -> bool
}.

(** Reading the file [b] with the encoding [enc] gives the text [t]. *)
Definition reads_as (W : World) (enc : encoding) (b : bytes) (t : text)
  : Prop :=
  file_read W enc b 1024 = inr (firstn 1024 t) /\
  forall d,
    reader_rows W enc b d =
    match csv_rows W d t with Some rows => inr rows | None => inl CsvError end.

(** What the program prints, one constructor per [print] of the source. *)
Inductive message :=
| MsgReading (csv_filename : text)
| MsgWarningEmpty
| MsgLoaded (n_rows n_cols : nat)
| MsgDone (path : text)
| MsgError (e : exn)
| MsgUsage
| MsgExamples
| MsgExample1
| MsgExample2.

(** The observable effects of a run: the messages printed, the calls
    of [open] with the path and the encoding (for reading by [read_csv],
    for writing, hence creating or truncating the file, by
    [save_markdown]), and the texts written in full. *)
Record effects := {
  stdout : list message;
  opened : list (text * encoding);
  written : list (text * text)
}.

Definition no_effects : effects :=
  {| stdout := []; opened := []; written := [] |}.

(** ** State and exceptions: effects survive a raised exception. *)
Module Py.

Definition M (A : Type) : Type := effects -> (exn + A) * effects.

Definition ret {A} (a : A) : M A := fun s => (inr a, s).

Definition bind {A B} (m : M A) (k : A -> M B) : M B :=
  fun s =>
    match m s with
    | (inr a, s') => k a s'
    | (inl e, s') => (inl e, s')
    end.

Definition raise {A} (e : exn) : M A := fun s => (inl e, s).

(** [try: m except <class>: handler], the class given by [catches] *)
Definition try_except {A} (m : M A) (catches : exn -> bool)
           (handler : exn -> M A) : M A :=
  fun s =>
    match m s with
    | (inl e, s') => if catches e then handler e s' else (inl e, s')
    | r => r
    end.

Definition lift {A} (r : exn + A) : M A := fun s => (r, s).

(** [print(m)]; standard output is taken to accept every message. *)
Definition print (m : message) : M unit :=
  fun s => (inr tt, {| stdout := stdout s ++ [m];
                       opened := opened s;
                       written := written s |}).

Definition log_open (path : text) (enc : encoding) : M unit :=
  fun s => (inr tt, {| stdout := stdout s;
                       opened := opened s ++ [(path, enc)];
                       written := written s |}).

Definition write_file (path content : text) : M unit :=
  fun s => (inr tt, {| stdout := stdout s;
                       opened := opened s;
                       written := written s ++ [(path, content)] |}).

End Py.

Declare Scope py_scope.
Delimit Scope py_scope with py.
Notation "x <- m ;; k" := (Py.bind m (fun x => k))
  (at level 61, m at next level, right associativity) : py_scope.
Notation "m ;; k" := (Py.bind m (fun _ => k))
  (at level 61, right associativity) : py_scope.

(** ** Loader, writer, orchestration *)

Section Program.

Variable W : World.

Local Open Scope py_scope.

(** The body of either [with open(csv_path, 'r', encoding=enc,
    newline='')] block of [read_csv]; the two blocks differ in the
    encoding only. *)
Definition read_with (csv_filename : text) (enc : encoding) (b : bytes)
  : Py.M (list Row) :=
  Py.log_open csv_filename enc ;;
  sample <- Py.lift (file_read W enc b 1024) ;;
  delimiter <- Py.lift (match sniff_delimiter W sample with
                        | Some d => inr d
                        | None => inl CsvError
                        end) ;;
  Py.lift (reader_rows W enc b delimiter).

(** [CSV2MD.read_csv] *)
Definition read_csv (csv_filename : text) : Py.M (list Row) :=
  match input_file W csv_filename with
  | None => Py.raise FileNotFoundError
  | Some b =>
      Py.try_except (read_with csv_filename utf_8 b)
        is_UnicodeDecodeError
        (fun _ => read_with csv_filename shift_jis b)
  end.

(** [CSV2MD.save_markdown]: the directory is made, then the file is
    opened for writing, then the text is written. *)
Definition save_markdown (markdown_content output_filename : text)
  : Py.M text :=
  if mkdir_ok W then
    let path := output_path W output_filename in
    if writable W path
    then
      Py.log_open path utf_8 ;;
      if write_ok W path markdown_content
      then Py.write_file path markdown_content ;; Py.ret path
      else Py.raise OSError
    else Py.raise OSError
  else Py.raise OSError.

(** [CSV2MD.convert]; [None] is Python's [None]. *)
Definition convert (csv_filename : text) (output_filename : option text)
  : Py.M (option text) :=
  Py.try_except
    (Py.print (MsgReading csv_filename) ;;
     rows <- read_csv csv_filename ;;
     match rows with
     | [] => Py.print MsgWarningEmpty ;; Py.ret None
     | header :: _ =>
         Py.print (MsgLoaded (length rows) (length header)) ;;
         let '(s, refs) := alloc rows in
         let markdown_content := fst (convert_to_markdown_table s refs) in
         let output_filename :=
           match output_filename with
           | None => stem W csv_filename ++ str ".md"
           | Some name => name
           end in
         path <- save_markdown markdown_content output_filename ;;
         Py.print (MsgDone path) ;;
         Py.ret (Some path)
     end)
    (fun _ => true)
    (fun e => Py.print (MsgError e) ;; Py.ret None).

(** [main]: the value returned is the argument of [sys.exit]. *)
Definition main (argv : list text) : Py.M nat :=
  match argv with
  | _ :: csv_filename :: more =>
      let output_filename :=
        match more with
        | [] => None
        | name :: _ => Some name
        end in
      result <- convert csv_filename output_filename ;;
      match result with
      | Some _ => Py.ret 0
      | None => Py.ret 1
      end
  | _ =>
      Py.print MsgUsage ;; Py.print MsgExamples ;;
      Py.print MsgExample1 ;; Py.print MsgExample2 ;;
      Py.ret 1
  end.

End Program.

(** The outcome of one [with open(...)] block, apart from its effects. *)
Definition attempt (W : World) (enc : encoding) (b : bytes)
  : exn + list Row :=
  match file_read W enc b 1024 with
  | inl e => inl e
  | inr sample =>
      match sniff_delimiter W sample with
      | None => inl CsvError
      | Some delimiter => reader_rows W enc b delimiter
      end
  end.

(** The effects once [csv_filename] has been opened with [enc]. *)
Definition after_open (csv_filename : text) (enc : encoding) (st : effects)
  : effects :=
  {| stdout := stdout st;
     opened := opened st ++ [(csv_filename, enc)];
     written := written st |}.

(** ** Sample worlds

    Small instances of [World], to run the program on.  The codecs
    cover one-byte characters and, for UTF-8, three-byte sequences; the
    csv module is reduced to splitting on line feeds and on the
    delimiter. *)
Module Sample.

Definition continuation (x : N) : bool := ((128 <=? x) && (x <? 192))%N.

Fixpoint utf8_decode (b : list N) : option text :=
  match b with
  | [] => Some []
  | x :: r =>
      if (x <? 128)%N then option_map (cons x) (utf8_decode r)
      else if ((224 <=? x) && (x <? 240))%N then
        match r with
        | y :: z :: r' =>
            if continuation y && continuation z
            then option_map
                   (cons ((x - 224) * 4096 + (y - 128) * 64 + (z - 128))%N)
                   (utf8_decode r')
            else None
        | _ => None
        end
      else None
  end.

Fixpoint sjis_decode (b : list N) : option text :=
  match b with
  | [] => Some []
  | x :: r =>
      if (x <? 128)%N then option_map (cons x) (sjis_decode r)
      else if ((161 <=? x) && (x <=? 223))%N
           then option_map (cons (65377 + (x - 161))%N) (sjis_decode r)
           else None
  end.

Definition decode (enc : encoding) (b : bytes) : option text :=
  match enc with
  | utf_8 => utf8_decode (map Byte.to_N b)
  | shift_jis => sjis_decode (map Byte.to_N b)
  end.

Definition COMMA : char := 44%N.

(** A sniffer that finds a comma or gives up. *)
Definition comma_sniffer (sample : text) : option char :=
  if existsb (N.eqb COMMA) sample then Some COMMA else None.

Definition parse (d : char) (t : text) : option (list Row) :=
  match t with
  | [] => Some []
  | _ :: _ => Some (map (Str.split [d]) (Str.split [LF] t))
  end.

Definition sjis_file : bytes :=
  [Byte.xb1; Byte.x2c; Byte.xb2; Byte.x0a; Byte.x31; Byte.x2c; Byte.x32].

Definition utf8_file : bytes :=
  [Byte.xef; Byte.xbd; Byte.xb1; Byte.x2c; Byte.xef; Byte.xbd; Byte.xb2;
   Byte.x0a; Byte.x31; Byte.x2c; Byte.x32].

Definition content : text :=
  [65393; 44; 65394; 10; 49; 44; 50]%N.

Definition files (name : text) : option bytes :=
  if list_eq_dec N.eq_dec name (str "sjis.csv") then Some sjis_file
  else if list_eq_dec N.eq_dec name (str "utf8.csv") then Some utf8_file
  else if list_eq_dec N.eq_dec name (str "empty.csv") then Some []
  else None.

Definition SLASH : char := 47%N.
Definition DOT : char := 46%N.

(** [l] cut at its first [c]: what is before, what is after. *)
Fixpoint break_at (c : char) (l : text) : option (text * text) :=
  match l with
  | [] => None
  | x :: l' =>
      if (x =? c)%N then Some ([], l')
      else match break_at c l' with
           | Some (before, after) => Some (x :: before, after)
           | None => None
           end
  end.

(** [PurePosixPath(name).name], for a name without a trailing slash. *)
Definition basename (name : text) : text :=
  match break_at SLASH (rev name) with
  | Some (last, _) => rev last
  | None => name
  end.

(** [PurePosixPath(name).stem]: the last component without its last
    suffix; a dot at either end of the component starts no suffix. *)
Definition path_stem (name : text) : text :=
  let base := basename name in
  match break_at DOT (rev base) with
  | Some (_ :: _, c :: before) => rev (c :: before)
  | _ => base
  end.

(** [PurePosixPath("out") / name], for a non-empty name. *)
Definition out_path (name : text) : text :=
  match name with
  | c :: _ => if (c =? SLASH)%N then name else str "out/" ++ name
  | [] => str "out"
  end.

Definition world (sniffer : text -> option char) : World :=
  {| input_file := files;
     file_read := fun enc b n =>
       match decode enc b with
       | Some t => inr (firstn n t)
       | None => inl UnicodeDecodeError
       end;
     sniff_delimiter := sniffer;
     reader_rows := fun enc b d =>
       match decode enc b with
       | Some t =>
           match parse d t with
           | Some rows => inr rows
           | None => inl CsvError
           end
       | None => inl UnicodeDecodeError
       end;
     csv_rows := parse;
     stem := path_stem;
     output_path := out_path;
     mkdir_ok := true;
     writable := fun _ => true;
     write_ok := fun _ _ => true |}.

(** The same world with an output directory nothing can be written to. *)
Definition read_only_world (sniffer : text -> option char) : World :=
  let W := world sniffer in
  {| input_file := input_file W;
     file_read := file_read W;
     sniff_delimiter := sniff_delimiter W;
     reader_rows := reader_rows W;
     csv_rows := csv_rows W;
     stem := stem W;
     output_path := output_path W;
     mkdir_ok := true;
     writable := fun _ => false;
     write_ok := write_ok W |}.


End Sample.

(** Case analysis on the character comparisons of a goal. *)
Ltac count_cases :=
  repeat match goal with
         | |- context [N.eq_dec ?a ?b] => destruct (N.eq_dec a b)
         | |- context [(?a =? ?b)%N] => destruct (N.eqb_spec a b)
         end;
  subst; try discriminate; try congruence; try lia.

(* ================================================================== *)
(** * Part II: properties                                              *)
(* ================================================================== *)

Example escape_pipe_run :
  escape_markdown_chars (str "x|y") = str "x\|y".
Proof. reflexivity. Qed.

Example scenario_A :
  let '(s, rows) := alloc [[str "a"; str "b"]; [str "1"; str "2"]; [str "3"]] in
  fst (convert_to_markdown_table s rows)
  = str "| a | b |" ++ [LF] ++ str "| --- | --- |" ++ [LF]
    ++ str "| 1 | 2 |" ++ [LF] ++ str "| 3 |  |".
Proof. reflexivity. Qed.

(** ** Characters *)

Lemma is_space_SPACE : is_space SPACE = true.
Proof. reflexivity. Qed.

Lemma is_space_not_PIPE c : is_space c = true -> c <> PIPE.
Proof. intros H E; subst c; discriminate H. Qed.

Lemma is_space_not_BACKSLASH c : is_space c = true -> c <> BACKSLASH.
Proof. intros H E; subst c; discriminate H. Qed.

(** ** String primitives *)

(** Replacing a one-character pattern is a character-wise substitution. *)
Lemma replace_char a new s :
  Str.replace [a] new s
  = flat_map (fun c => if (c =? a)%N then new else [c]) s.
Proof.
  unfold Str.replace.
  induction s as [|c s IH]; simpl; [reflexivity|].
  rewrite IH, andb_true_r, N.eqb_sym.
  destruct (c =? a)%N; reflexivity.
Qed.

Lemma replace_pipe t :
  Str.replace [PIPE] [BACKSLASH; PIPE] t = Spec.escape_pipes t.
Proof. apply replace_char. Qed.

Lemma replace_breaks t :
  Str.replace [CR] [SPACE] (Str.replace [LF] [SPACE] t)
  = Spec.breaks_to_spaces t.
Proof.
  rewrite !replace_char.
  induction t as [|c t IH]; simpl; [reflexivity|].
  destruct (c =? LF)%N eqn:Elf; simpl.
  - rewrite IH, orb_true_r. reflexivity.
  - rewrite IH, orb_false_r.
    destruct (c =? CR)%N; reflexivity.
Qed.

Lemma lstrip_split t :
  exists run,
    t = run ++ Str.lstrip t /\ forallb is_space run = true /\
    Spec.starts_clean (Str.lstrip t).
Proof.
  induction t as [|c t (run & E & Hrun & Hc)]; simpl.
  - exists []. repeat split.
  - destruct (is_space c) eqn:Ec.
    + exists (c :: run). simpl. rewrite Ec, Hrun, <- E. repeat split. exact Hc.
    + exists []. repeat split. exact Ec.
Qed.

Lemma lstrip_length t : length (Str.lstrip t) <= length t.
Proof.
  induction t as [|c t IH]; simpl; [lia|].
  destruct (is_space c); simpl; lia.
Qed.

Lemma lstrip_clean t : Spec.starts_clean t -> Str.lstrip t = t.
Proof. destruct t as [|c t]; simpl; [reflexivity|]. intros ->. reflexivity. Qed.

Lemma sub_spaces_in_run t :
  Str.sub_spaces true t = Str.sub_spaces false (Str.lstrip t).
Proof.
  induction t as [|c t IH]; simpl; [reflexivity|].
  destruct (is_space c) eqn:Ec; [exact IH|].
  simpl. rewrite Ec. reflexivity.
Qed.

Lemma re_sub_spaces_collapses t :
  Spec.collapsed_to t (Str.re_sub_spaces t).
Proof.
  unfold Str.re_sub_spaces.
  remember (length t) as n eqn:En.
  assert (Hn : length t <= n) by lia. clear En.
  revert t Hn.
  induction n as [|n IH]; intros [|c t] Hn; simpl in *;
    try lia; try constructor.
  destruct (is_space c) eqn:Ec.
  - rewrite sub_spaces_in_run.
    destruct (lstrip_split t) as (run & E & Hrun & Hc).
    rewrite E at 1.
    change (c :: run ++ Str.lstrip t) with ((c :: run) ++ Str.lstrip t).
    constructor.
    + discriminate.
    + simpl. rewrite Ec. exact Hrun.
    + exact Hc.
    + apply IH. pose proof (lstrip_length t). lia.
  - constructor; [exact Ec|]. apply IH. lia.
Qed.

Lemma starts_clean_app x y :
  x <> [] -> Spec.starts_clean x -> Spec.starts_clean (x ++ y).
Proof. destruct x; [congruence|]. intros _ H. exact H. Qed.

Lemma rstrip_split t :
  exists b,
    t = Str.rstrip t ++ b /\ forallb is_space b = true /\
    Spec.starts_clean (rev (Str.rstrip t)).
Proof.
  induction t as [|c t (b & E & Hb & Hc)]; simpl.
  - exists []. repeat split.
  - destruct (Str.rstrip t) as [|d r] eqn:Er.
    + destruct (is_space c) eqn:Ec.
      * simpl in E. subst b. exists (c :: t). simpl. rewrite Ec, Hb.
        repeat split.
      * simpl in E. subst b. exists t. simpl. repeat split; assumption.
    + exists b. rewrite E at 1. repeat split; [exact Hb|].
      change (rev (c :: d :: r)) with (rev (d :: r) ++ [c]).
      apply starts_clean_app; [|exact Hc].
      simpl. intros H. apply app_eq_nil in H. destruct H; discriminate.
Qed.

Lemma rstrip_starts_clean t :
  Spec.starts_clean t -> Spec.starts_clean (Str.rstrip t).
Proof.
  destruct t as [|c t]; simpl; [trivial|].
  intros Hc. destruct (Str.rstrip t); [rewrite Hc|]; exact Hc.
Qed.

Lemma strip_strips t : Spec.stripped_to t (Str.strip t).
Proof.
  unfold Spec.stripped_to, Str.strip.
  destruct (lstrip_split t) as (a & Ea & Ha & Hc).
  destruct (rstrip_split (Str.lstrip t)) as (b & Eb & Hb & Hr).
  exists a, b. repeat split; try assumption.
  - rewrite <- Eb. exact Ea.
  - apply rstrip_starts_clean. exact Hc.
Qed.

(** The two relations of the specification are functional: they leave
    one result only, the one the code computes. *)

Lemma sub_spaces_skip_run run t :
  forallb is_space run = true ->
  Str.sub_spaces true (run ++ t) = Str.sub_spaces true t.
Proof.
  induction run as [|c run IH]; simpl; [reflexivity|].
  intros H. apply andb_prop in H. destruct H as [Hc Hrun].
  rewrite Hc. exact (IH Hrun).
Qed.

Lemma collapsed_to_unique t u :
  Spec.collapsed_to t u -> u = Str.re_sub_spaces t.
Proof.
  unfold Str.re_sub_spaces.
  induction 1 as [|c t r Hc _ IH|run t r Hne Hrun Hclean _ IH].
  - reflexivity.
  - simpl. rewrite Hc, IH. reflexivity.
  - destruct run as [|c run]; [congruence|].
    simpl in Hrun. apply andb_prop in Hrun. destruct Hrun as [Hc Hrun].
    simpl. rewrite Hc, (sub_spaces_skip_run run t Hrun), sub_spaces_in_run.
    rewrite (lstrip_clean t Hclean), IH. reflexivity.
Qed.

Lemma lstrip_run a t :
  forallb is_space a = true -> Str.lstrip (a ++ t) = Str.lstrip t.
Proof.
  induction a as [|c a IH]; simpl; [reflexivity|].
  intros H. apply andb_prop in H. destruct H as [Hc Ha].
  rewrite Hc. exact (IH Ha).
Qed.

Lemma rstrip_white b : forallb is_space b = true -> Str.rstrip b = [].
Proof.
  induction b as [|c b IH]; simpl; [reflexivity|].
  intros H. apply andb_prop in H. destruct H as [Hc Hb].
  rewrite (IH Hb), Hc. reflexivity.
Qed.

Lemma rstrip_run r b :
  forallb is_space b = true -> Str.rstrip (r ++ b) = Str.rstrip r.
Proof.
  intros Hb. induction r as [|c r IH]; simpl.
  - apply rstrip_white. exact Hb.
  - rewrite IH. reflexivity.
Qed.

Lemma starts_clean_app_inv x y :
  x <> [] -> Spec.starts_clean (x ++ y) -> Spec.starts_clean x.
Proof. destruct x; [congruence|]. intros _ H. exact H. Qed.

Lemma rstrip_clean r : Spec.starts_clean (rev r) -> Str.rstrip r = r.
Proof.
  induction r as [|c r IH]; [reflexivity|].
  destruct r as [|d r].
  - simpl. intros ->. reflexivity.
  - intros H.
    assert (E : Str.rstrip (c :: d :: r)
                = match Str.rstrip (d :: r) with
                  | [] => if is_space c then [] else [c]
                  | x :: y => c :: x :: y
                  end) by reflexivity.
    rewrite E, IH; [reflexivity|].
    change (rev (c :: d :: r)) with (rev (d :: r) ++ [c]) in H.
    apply starts_clean_app_inv in H; [exact H|].
    simpl. intros H0. apply app_eq_nil in H0. destruct H0; discriminate.
Qed.

Lemma stripped_to_unique t r : Spec.stripped_to t r -> r = Str.strip t.
Proof.
  intros (a & b & -> & Ha & Hb & Hr & Hl).
  unfold Str.strip. rewrite (lstrip_run a (r ++ b) Ha).
  destruct r as [|c r].
  - simpl. destruct (lstrip_split b) as (run & E & _ & _).
    assert (Hw : forallb is_space (Str.lstrip b) = true).
    { rewrite E, forallb_app in Hb. apply andb_prop in Hb. apply Hb. }
    symmetry. apply rstrip_white. exact Hw.
  - rewrite (lstrip_clean ((c :: r) ++ b) Hr).
    rewrite (rstrip_run (c :: r) b Hb). symmetry. apply rstrip_clean. exact Hl.
Qed.

(** ** [escape_markdown_chars] *)

Lemma escape_markdown_chars_eq t :
  escape_markdown_chars t
  = Str.strip (Str.re_sub_spaces (Spec.breaks_to_spaces (Spec.escape_pipes t))).
Proof.
  unfold escape_markdown_chars. rewrite replace_pipe, replace_breaks. reflexivity.
Qed.

(** C3. [escape_markdown_chars] applies, in this order: every pipe
    becomes backslash-pipe; every CR and LF becomes a space; every run
    of white space is collapsed into one space; white space is trimmed
    at both ends.  Its result is the one text these four steps lead to.
    So ["x|y"] gives ["x\|y"] and ["line1\nline2"] gives
    ["line1 line2"]. *)
Theorem escape_markdown_chars_steps :
  (forall t r,
      (exists u,
          Spec.collapsed_to (Spec.breaks_to_spaces (Spec.escape_pipes t)) u /\
          Spec.stripped_to u r)
      <-> r = escape_markdown_chars t) /\
  escape_markdown_chars (str "x|y") = str "x\|y" /\
  escape_markdown_chars (str "line1" ++ [LF] ++ str "line2")
  = str "line1 line2".
Proof.
  split; [|split; reflexivity].
  intros t r. rewrite escape_markdown_chars_eq. split.
  - intros (u & Hu & Hr).
    apply collapsed_to_unique in Hu. subst u.
    apply stripped_to_unique. exact Hr.
  - intros ->. eexists.
    split; [apply re_sub_spaces_collapses | apply strip_strips].
Qed.

(** *** Idempotence *)

Lemma sub_spaces_tidy b s : tidy b (Str.sub_spaces b s) = true.
Proof.
  revert b. induction s as [|c s IH]; intros b; simpl; [reflexivity|].
  destruct (is_space c) eqn:Ec.
  - destruct b; [apply IH|].
    simpl. apply IH.
  - simpl. rewrite Ec. apply IH.
Qed.

Lemma tidy_sub_spaces b s : tidy b s = true -> Str.sub_spaces b s = s.
Proof.
  revert b. induction s as [|c s IH]; intros b; simpl; [reflexivity|].
  destruct (is_space c) eqn:Ec.
  - intros H. apply andb_prop in H. destruct H as [H Hs].
    apply andb_prop in H. destruct H as [Hc Hb].
    apply N.eqb_eq in Hc. apply negb_true_iff in Hb. subst b c.
    rewrite (IH true Hs). reflexivity.
  - intros Hs. rewrite (IH false Hs). reflexivity.
Qed.

Lemma tidy_lstrip b b' s : tidy b s = true -> tidy b' (Str.lstrip s) = true.
Proof.
  revert b. induction s as [|c s IH]; intros b; simpl; [reflexivity|].
  destruct (is_space c) eqn:Ec.
  - intros H. apply andb_prop in H. destruct H as [_ Hs]. exact (IH true Hs).
  - simpl. rewrite Ec. trivial.
Qed.

Lemma tidy_rstrip b s : tidy b s = true -> tidy b (Str.rstrip s) = true.
Proof.
  revert b. induction s as [|c s IH]; intros b; simpl; [reflexivity|].
  destruct (is_space c) eqn:Ec.
  - intros H. apply andb_prop in H. destruct H as [H Hs].
    specialize (IH true Hs).
    destruct (Str.rstrip s); [reflexivity|].
    simpl tidy at 1. rewrite Ec, H. exact IH.
  - intros Hs. specialize (IH false Hs).
    destruct (Str.rstrip s); simpl; rewrite Ec; [reflexivity|exact IH].
Qed.

Lemma rstrip_idempotent s : Str.rstrip (Str.rstrip s) = Str.rstrip s.
Proof.
  induction s as [|c s IH]; simpl; [reflexivity|].
  destruct (Str.rstrip s) as [|d r] eqn:Er.
  - destruct (is_space c) eqn:Ec; simpl; [|rewrite Ec]; reflexivity.
  - change (Str.rstrip (c :: d :: r))
      with (match Str.rstrip (d :: r) with
            | [] => if is_space c then [] else [c]
            | x :: r' => c :: x :: r'
            end).
    rewrite IH. reflexivity.
Qed.

Lemma strip_fixed s :
  Spec.starts_clean s -> Str.rstrip s = s -> Str.strip s = s.
Proof. intros Hc Hr. unfold Str.strip. rewrite (lstrip_clean _ Hc). exact Hr. Qed.

(** Collapsing and stripping once more changes nothing. *)
Lemma strip_collapse_fixed t :
  let z := Str.strip (Str.re_sub_spaces t) in
  Str.strip (Str.re_sub_spaces z) = z.
Proof.
  intros z.
  assert (Hz : tidy false z = true).
  { apply tidy_rstrip, (tidy_lstrip false false), sub_spaces_tidy. }
  unfold Str.re_sub_spaces. rewrite (tidy_sub_spaces _ _ Hz).
  apply strip_fixed.
  - destruct (strip_strips (Str.re_sub_spaces t)) as (_ & _ & _ & _ & _ & H & _).
    exact H.
  - apply rstrip_idempotent.
Qed.

Lemma tidy_breaks b s : tidy b s = true -> Spec.breaks_to_spaces s = s.
Proof.
  revert b. induction s as [|c s IH]; intros b; simpl; [reflexivity|].
  destruct (is_space c) eqn:Ec.
  - intros H. apply andb_prop in H. destruct H as [H Hs].
    apply andb_prop in H. destruct H as [Hc _]. apply N.eqb_eq in Hc. subst c.
    rewrite (IH true Hs). reflexivity.
  - intros Hs. rewrite (IH false Hs).
    destruct (c =? CR)%N eqn:E1.
    { apply N.eqb_eq in E1. subst c. discriminate Ec. }
    destruct (c =? LF)%N eqn:E2.
    { apply N.eqb_eq in E2. subst c. discriminate Ec. }
    reflexivity.
Qed.

Lemma escape_pipes_none t : ~ In PIPE t -> Spec.escape_pipes t = t.
Proof.
  induction t as [|c t IH]; simpl; [reflexivity|].
  intros H. destruct (c =? PIPE)%N eqn:E.
  - apply N.eqb_eq in E. exfalso. apply H. left. exact E.
  - rewrite IH; [reflexivity|]. intros Hin. apply H. right. exact Hin.
Qed.

Lemma breaks_to_spaces_in c t :
  In c (Spec.breaks_to_spaces t) -> c = SPACE \/ In c t.
Proof.
  unfold Spec.breaks_to_spaces. rewrite in_map_iff.
  intros (d & E & Hd). destruct ((d =? CR) || (d =? LF))%N.
  - left. symmetry. exact E.
  - right. subst d. exact Hd.
Qed.

Lemma sub_spaces_in c b s : In c (Str.sub_spaces b s) -> c = SPACE \/ In c s.
Proof.
  revert b. induction s as [|d s IH]; intros b; simpl; [tauto|].
  destruct (is_space d).
  - destruct b; simpl; intros H.
    + destruct (IH _ H); auto.
    + destruct H as [H|H]; [left; symmetry; exact H|].
      destruct (IH _ H); auto.
  - simpl. intros [H|H]; [auto|]. destruct (IH _ H); auto.
Qed.

Lemma lstrip_in c s : In c (Str.lstrip s) -> In c s.
Proof.
  induction s as [|d s IH]; simpl; [tauto|].
  destruct (is_space d); simpl; auto. 
Qed.

Lemma rstrip_in c s : In c (Str.rstrip s) -> In c s.
Proof.
  induction s as [|d s IH]; simpl; [tauto|].
  destruct (Str.rstrip s) as [|e r].
  - destruct (is_space d); simpl; tauto.
  - intros [H|H]; [left; exact H| right; apply IH; exact H].
Qed.

Lemma escape_no_new_pipe t :
  ~ In PIPE t -> ~ In PIPE (escape_markdown_chars t).
Proof.
  intros Ht H. rewrite escape_markdown_chars_eq, (escape_pipes_none _ Ht) in H.
  apply rstrip_in, lstrip_in, sub_spaces_in in H.
  destruct H as [H|H]; [discriminate H|].
  apply breaks_to_spaces_in in H.
  destruct H as [H|H]; [discriminate H|]. exact (Ht H).
Qed.

(** Idempotence needs the absence of pipes only. *)
Lemma escape_idempotent_no_pipe x :
  ~ In PIPE x ->
  escape_markdown_chars (escape_markdown_chars x) = escape_markdown_chars x.
Proof.
  intros Hx.
  rewrite (escape_markdown_chars_eq (escape_markdown_chars x)).
  rewrite (escape_pipes_none _ (escape_no_new_pipe _ Hx)).
  rewrite escape_markdown_chars_eq.
  set (y := Spec.breaks_to_spaces (Spec.escape_pipes x)).
  rewrite (tidy_breaks false).
  - apply strip_collapse_fixed.
  - apply tidy_rstrip, (tidy_lstrip false false), sub_spaces_tidy.
Qed.

(** C4. On text without pipe, carriage return or line feed, escaping is
    idempotent: [escape (escape x) = escape x]. *)
Theorem escape_markdown_chars_idempotent x :
  ~ In PIPE x -> ~ In CR x -> ~ In LF x ->
  escape_markdown_chars (escape_markdown_chars x) = escape_markdown_chars x.
Proof. intros Hp _ _. apply escape_idempotent_no_pipe. exact Hp. Qed.

Lemma escape_markdown_chars_idempotent_witness :
  let x := str "  a   b c " in
  (~ In PIPE x /\ ~ In CR x /\ ~ In LF x) /\
  escape_markdown_chars (escape_markdown_chars x) = escape_markdown_chars x /\
  escape_markdown_chars x = str "a b c".
Proof.
  assert (H : forall c, ~ In c (str "  a   b c ") \/ (c <> PIPE /\ c <> CR /\ c <> LF)).
  { intros c. destruct (in_dec N.eq_dec c (str "  a   b c ")) as [Hin|Hn]; [right|left; exact Hn].
    simpl in Hin. repeat split; intros ->;
      repeat (destruct Hin as [Hin|Hin]; [discriminate Hin|]); exact Hin. }
  assert (Hp : ~ In PIPE (str "  a   b c ")) by (destruct (H PIPE) as [?|(?&?&?)]; congruence).
  assert (Hc : ~ In CR (str "  a   b c ")) by (destruct (H CR) as [?|(?&?&?)]; congruence).
  assert (Hl : ~ In LF (str "  a   b c ")) by (destruct (H LF) as [?|(?&?&?)]; congruence).
  split; [auto|]. split; [|reflexivity].
  apply (escape_markdown_chars_idempotent (str "  a   b c ") Hp Hc Hl).
Defined.

(** ** Row normalization and the store *)

Lemma padded_length n r : n <= length (padded n r) /\ (length r <= n -> length (padded n r) = n).
Proof. unfold padded. rewrite length_app, repeat_length. lia. Qed.

Lemma padded_long n r : n <= length r -> padded n r = r.
Proof.
  intros H. unfold padded. replace (n - length r) with 0 by lia.
  apply app_nil_r.
Qed.

Lemma padded_idempotent n r : padded n (padded n r) = padded n r.
Proof. apply padded_long, padded_length. Qed.

Lemma firstn_padded n r : firstn n (padded n r) = Spec.normalize n r.
Proof.
  unfold Spec.normalize, padded.
  destruct (length r <? n) eqn:E.
  - apply Nat.ltb_lt in E. apply firstn_all2.
    rewrite length_app, repeat_length. lia.
  - apply Nat.ltb_ge in E. replace (n - length r) with 0 by lia.
    simpl. rewrite app_nil_r. reflexivity.
Qed.

Lemma normalize_length n r : length (Spec.normalize n r) = n.
Proof.
  unfold Spec.normalize. destruct (length r <? n) eqn:E.
  - apply Nat.ltb_lt in E. rewrite length_app, repeat_length. lia.
  - apply Nat.ltb_ge in E. rewrite length_firstn. lia.
Qed.

Lemma normalize_padded n r : Spec.normalize n (padded n r) = Spec.normalize n r.
Proof. rewrite <- !firstn_padded, padded_idempotent. reflexivity. Qed.

(** The padding loop, run with enough fuel, leaves the row [padded] and
    every other object alone. *)
Lemma pad_while_spec fuel : forall s l n,
  n - length (s l) <= fuel ->
  forall l', pad_while fuel s l n l'
             = if Nat.eqb l' l then padded n (s l) else s l'.
Proof.
  induction fuel as [|fuel IH]; intros s l n Hf l'; simpl.
  - destruct (Nat.eqb_spec l' l) as [->|_]; [|reflexivity].
    symmetry. apply padded_long. lia.
  - destruct (Nat.ltb_spec (length (s l)) n) as [Hlt|Hge].
    + rewrite IH.
      * unfold update. rewrite Nat.eqb_refl.
        destruct (Nat.eqb_spec l' l) as [->|_]; [|reflexivity].
        unfold padded. rewrite length_app. simpl.
        replace (n - length (s l)) with (S (n - (length (s l) + 1))) by lia.
        simpl. rewrite <- app_assoc. reflexivity.
      * unfold update. rewrite Nat.eqb_refl, length_app. simpl. lia.
    + destruct (Nat.eqb_spec l' l) as [->|_]; [|reflexivity].
      symmetry. apply padded_long. exact Hge.
Qed.

(** The loop is left through its guard: [header_length] iterations are
    enough for [len(row) < header_length] to become false. *)
Lemma pad_while_exit s l n :
  (length (pad_while n s l n l) <? n) = false.
Proof.
  rewrite pad_while_spec by lia. rewrite Nat.eqb_refl.
  apply Nat.ltb_ge, padded_length.
Qed.

Lemma data_lines_spec rest : forall s h,
  fst (data_lines s h rest)
  = map (fun l => markdown_line
                    (map escape_markdown_chars
                         (Spec.normalize (length (s h)) (s l)))) rest
  /\ forall l,
      snd (data_lines s h rest) l
      = if in_dec Nat.eq_dec l rest then padded (length (s h)) (s l) else s l.
Proof.
  induction rest as [|l0 rest IH]; intros s h; [split; reflexivity|].
  cbn [data_lines].
  set (n := length (s h)).
  set (s1 := pad_while n s l0 n).
  assert (H1 : forall l', s1 l' = if Nat.eqb l' l0 then padded n (s l0) else s l').
  { intros l'. apply pad_while_spec. lia. }
  assert (Hh : s1 h = s h).
  { rewrite H1. destruct (Nat.eqb_spec h l0) as [<-|_]; [|reflexivity].
    apply padded_long. unfold n. lia. }
  destruct (IH s1 h) as [IHl IHs]. rewrite Hh in IHl, IHs. fold n in IHl, IHs.
  destruct (data_lines s1 h rest) as [lines s2]. simpl in IHl, IHs.
  cbn [fst snd]. split.
  - cbn [map]. f_equal.
    + rewrite H1, Nat.eqb_refl, firstn_padded. reflexivity.
    + rewrite IHl. apply map_ext. intros l. rewrite H1.
      destruct (Nat.eqb_spec l l0) as [->|_]; [|reflexivity].
      rewrite normalize_padded. reflexivity.
  - intros l. rewrite IHs, H1.
    destruct (Nat.eqb_spec l l0) as [->|Hne].
    + rewrite padded_idempotent.
      destruct (in_dec Nat.eq_dec l0 rest) as [Hi|Hi],
               (in_dec Nat.eq_dec l0 (l0 :: rest)) as [Hj|Hj];
        try reflexivity; exfalso; apply Hj; left; reflexivity.
    + destruct (in_dec Nat.eq_dec l rest) as [Hi|Hi],
               (in_dec Nat.eq_dec l (l0 :: rest)) as [Hj|Hj];
        try reflexivity; exfalso.
      * apply Hj. right. exact Hi.
      * destruct Hj as [E|Hj]; [apply Hne; symmetry; exact E | exact (Hi Hj)].
Qed.

(** The lines of a non-empty table. *)
Lemma markdown_lines_spec s h rest :
  fst (markdown_lines s (h :: rest))
  = markdown_line (map escape_markdown_chars (s h))
    :: markdown_line (repeat (str "---") (length (s h)))
    :: map (fun l => markdown_line
                       (map escape_markdown_chars
                            (Spec.normalize (length (s h)) (s l)))) rest.
Proof.
  cbn [markdown_lines].
  destruct (data_lines_spec rest s h) as [Hl _].
  destruct (data_lines s h rest) as [lines s']. cbn [fst] in *.
  rewrite Hl. reflexivity.
Qed.

Lemma convert_to_markdown_table_lines s h rest :
  fst (convert_to_markdown_table s (h :: rest))
  = Str.join [LF] (fst (markdown_lines s (h :: rest))).
Proof.
  unfold convert_to_markdown_table.
  destruct (markdown_lines s (h :: rest)) as [lines s']. reflexivity.
Qed.

Lemma convert_to_markdown_table_store s h rest :
  snd (convert_to_markdown_table s (h :: rest)) = snd (data_lines s h rest).
Proof.
  unfold convert_to_markdown_table, markdown_lines.
  destruct (data_lines s h rest) as [lines s']. reflexivity.
Qed.

(** C1. For a non-empty table, every data row is emitted normalized to
    exactly [len(header)] fields: a shorter row is padded at the end
    with empty fields up to the header length, a longer one is cut to
    its first [len(header)] fields. *)
Theorem data_rows_normalized s h rest :
  let n := length (s h) in
  fst (convert_to_markdown_table s (h :: rest))
  = Str.join [LF]
      (markdown_line (map escape_markdown_chars (s h))
       :: markdown_line (repeat (str "---") n)
       :: map (fun l => markdown_line
                          (map escape_markdown_chars (Spec.normalize n (s l))))
              rest)
  /\ forall row,
      length (Spec.normalize n row) = n
      /\ (length row < n ->
          Spec.normalize n row = row ++ repeat [] (n - length row))
      /\ (n <= length row -> Spec.normalize n row = firstn n row).
Proof.
  intros n. split.
  - rewrite convert_to_markdown_table_lines, markdown_lines_spec. reflexivity.
  - intros row. split; [apply normalize_length|].
    unfold Spec.normalize. split; intros H.
    + apply Nat.ltb_lt in H. rewrite H. reflexivity.
    + apply Nat.ltb_ge in H. rewrite H. reflexivity.
Qed.

(** C2. For a non-empty table, the separator line is made of exactly
    [len(header)] tokens ["---"], joined with [" | "] between ["| "] and
    [" |"], whatever the widths of the data rows. *)
Theorem separator_line s h rest :
  let tokens := repeat (str "---") (length (s h)) in
  length tokens = length (s h)
  /\ nth 1 (fst (markdown_lines s (h :: rest))) []
     = str "| " ++ Str.join (str " | ") tokens ++ str " |"
  /\ exists header_line data,
      fst (convert_to_markdown_table s (h :: rest))
      = Str.join [LF] (header_line :: markdown_line tokens :: data)
      /\ length data = length rest.
Proof.
  intros tokens. split; [apply repeat_length|].
  rewrite convert_to_markdown_table_lines, markdown_lines_spec.
  split; [reflexivity|].
  eexists _, _. split; [reflexivity|]. apply length_map.
Qed.

(** C6. A table with zero rows gives the empty string; a table with a
    header row only gives the header line and the separator line, and
    no data line. *)
Theorem empty_and_header_only :
  (forall s, fst (convert_to_markdown_table s []) = [])
  /\ forall s h,
      fst (convert_to_markdown_table s [h])
      = markdown_line (map escape_markdown_chars (s h))
        ++ [LF] ++ markdown_line (repeat (str "---") (length (s h))).
Proof. split; intros; reflexivity. Qed.

(** C10. [convert_to_markdown_table] mutates its argument: a data row
    shorter than the header has empty fields appended to its own list,
    so that the caller sees it changed; the header row, the rows at
    least as long as the header and every object that is not a data row
    are left as they were (the truncated row is a new list). *)
Theorem convert_to_markdown_table_mutates s h rest :
  let n := length (s h) in
  let s' := snd (convert_to_markdown_table s (h :: rest)) in
  (forall l, In l rest -> length (s l) < n ->
             s' l = s l ++ repeat [] (n - length (s l)) /\ s' l <> s l)
  /\ s' h = s h
  /\ (forall l, n <= length (s l) -> s' l = s l)
  /\ (forall l, ~ In l rest -> s' l = s l).
Proof.
  intros n s'. subst s'. rewrite convert_to_markdown_table_store.
  destruct (data_lines_spec rest s h) as [_ Hs]. fold n in Hs.
  assert (Hlong : forall l, n <= length (s l) -> snd (data_lines s h rest) l = s l).
  { intros l Hl. rewrite Hs. destruct (in_dec Nat.eq_dec l rest); [|reflexivity].
    apply padded_long. exact Hl. }
  repeat split.
  - rewrite Hs. destruct (in_dec Nat.eq_dec l rest); [reflexivity|contradiction].
  - rewrite Hs. destruct (in_dec Nat.eq_dec l rest); [|contradiction].
    intros E. apply (f_equal (@length _)) in E.
    pose proof (padded_length n (s l)). lia.
  - apply Hlong. unfold n. lia.
  - exact Hlong.
  - intros l Hl. rewrite Hs. destruct (in_dec Nat.eq_dec l rest); [contradiction|reflexivity].
Qed.

(** ** Splitting an emitted line *)

Lemma guarded_weaken p s : guarded p s = true -> guarded true s = true.
Proof.
  destruct s as [|c s]; simpl; [trivial|].
  intros H. apply andb_prop in H. destruct H as [_ H]. rewrite H.
  destruct (c =? PIPE)%N; reflexivity.
Qed.

Lemma guarded_any p s : guarded false s = true -> guarded p s = true.
Proof. destruct p; [apply guarded_weaken|trivial]. Qed.

Lemma escape_pipes_guarded p t : guarded p (Spec.escape_pipes t) = true.
Proof.
  revert p. induction t as [|c t IH]; intros p; simpl; [reflexivity|].
  destruct (c =? PIPE)%N eqn:E; simpl.
  - apply IH.
  - rewrite E. apply IH.
Qed.

Lemma breaks_guarded p s :
  guarded p s = true -> guarded p (Spec.breaks_to_spaces s) = true.
Proof.
  revert p. induction s as [|c s IH]; intros p; simpl; [trivial|].
  intros H. apply andb_prop in H. destruct H as [Hc Hs].
  destruct ((c =? CR) || (c =? LF))%N eqn:E.
  - simpl. apply IH. apply guarded_any.
    apply orb_prop in E. destruct E as [E|E]; apply N.eqb_eq in E; subst c;
      exact Hs.
  - rewrite Hc. apply IH. exact Hs.
Qed.

Lemma space_plain c :
  is_space c = true -> (c =? PIPE)%N = false /\ (c =? BACKSLASH)%N = false.
Proof.
  intros H. split; apply N.eqb_neq; intros ->; discriminate H.
Qed.

Lemma sub_spaces_guarded b p s :
  guarded p s = true -> guarded p (Str.sub_spaces b s) = true.
Proof.
  revert b p. induction s as [|c s IH]; intros b p; simpl; [trivial|].
  intros H. apply andb_prop in H. destruct H as [Hc Hs].
  destruct (is_space c) eqn:Ec.
  - destruct (space_plain _ Ec) as [_ Eb]. rewrite Eb in Hs.
    destruct b; [apply IH, guarded_any, Hs|].
    simpl. apply IH. exact Hs.
  - simpl. rewrite Hc. apply IH. exact Hs.
Qed.

Lemma lstrip_guarded p s :
  guarded p s = true -> guarded p (Str.lstrip s) = true.
Proof.
  revert p. induction s as [|c s IH]; intros p H; simpl; [trivial|].
  destruct (is_space c) eqn:Ec; [|exact H].
  destruct (space_plain _ Ec) as [_ Eb].
  simpl in H. apply andb_prop in H. destruct H as [_ Hs]. rewrite Eb in Hs.
  apply IH, guarded_any, Hs.
Qed.

Lemma rstrip_guarded p s :
  guarded p s = true -> guarded p (Str.rstrip s) = true.
Proof.
  revert p. induction s as [|c s IH]; intros p H; simpl; [trivial|].
  simpl in H. apply andb_prop in H. destruct H as [Hc Hs].
  specialize (IH _ Hs).
  destruct (Str.rstrip s) as [|d r].
  - destruct (is_space c); [reflexivity|]. simpl. rewrite Hc. reflexivity.
  - change (guarded p (c :: d :: r))
      with ((if (c =? PIPE)%N then p else true)
            && guarded (c =? BACKSLASH)%N (d :: r)).
    rewrite Hc, IH. reflexivity.
Qed.

(** In an escaped cell every pipe follows a backslash. *)
Lemma escape_guarded t : guarded false (escape_markdown_chars t) = true.
Proof.
  rewrite escape_markdown_chars_eq.
  apply rstrip_guarded, lstrip_guarded, sub_spaces_guarded, breaks_guarded,
    escape_pipes_guarded.
Qed.

Lemma starts_with_sep s :
  Str.starts_with [SPACE; PIPE; SPACE] s = true ->
  exists r, s = SPACE :: PIPE :: SPACE :: r.
Proof.
  destruct s as [|a [|b [|c r]]]; cbn [Str.starts_with]; intros H;
    try discriminate H;
    try (apply andb_prop in H; destruct H as [_ H]; discriminate H);
    try (apply andb_prop in H; destruct H as [_ H];
         apply andb_prop in H; destruct H as [_ H]; discriminate H).
  apply andb_prop in H. destruct H as [Ha H].
  apply andb_prop in H. destruct H as [Hb H].
  apply andb_prop in H. destruct H as [Hc _].
  apply N.eqb_eq in Ha, Hb, Hc. subst a b c.
  exists r. reflexivity.
Qed.

(** No occurrence of the separator starts inside a guarded cell, whatever
    follows the cell: another separator, or nothing. *)
Lemma guarded_no_sep p a c tail :
  guarded p (a :: c) = true ->
  tail = [] \/ (exists r, tail = SPACE :: PIPE :: SPACE :: r) ->
  Str.starts_with [SPACE; PIPE; SPACE] (a :: c ++ tail) = false.
Proof.
  intros Hg Ht.
  destruct (Str.starts_with [SPACE; PIPE; SPACE] (a :: c ++ tail)) eqn:E;
    [|reflexivity].
  exfalso. apply starts_with_sep in E. destruct E as [r E].
  injection E as Ea E. subst a.
  destruct c as [|b c].
  - destruct Ht as [->|[r' ->]]; discriminate E.
  - injection E as Eb E. subst b. simpl in Hg. discriminate Hg.
Qed.

Lemma guarded_tail p a c :
  guarded p (a :: c) = true -> guarded (a =? BACKSLASH)%N c = true.
Proof. simpl. intros H. apply andb_prop in H. apply H. Qed.

Lemma split_cell_sep c : forall p acc r,
  guarded p c = true ->
  Str.split_from [SPACE; PIPE; SPACE] 0 acc
    (c ++ SPACE :: PIPE :: SPACE :: r)
  = (rev acc ++ c) :: Str.split_from [SPACE; PIPE; SPACE] 0 [] r.
Proof.
  induction c as [|a c IH]; intros p acc r Hg.
  - rewrite app_nil_r. reflexivity.
  - cbn [app Str.split_from].
    rewrite (@guarded_no_sep p a c _ Hg) by (right; eexists; reflexivity).
    rewrite (IH _ _ _ (@guarded_tail p a c Hg)).
    cbn [rev]. rewrite <- app_assoc. reflexivity.
Qed.

Lemma split_cell_last c : forall p acc,
  guarded p c = true ->
  Str.split_from [SPACE; PIPE; SPACE] 0 acc c = [rev acc ++ c].
Proof.
  induction c as [|a c IH]; intros p acc Hg.
  - rewrite app_nil_r. reflexivity.
  - cbn [Str.split_from].
    pose proof (@guarded_no_sep p a c [] Hg (or_introl eq_refl)) as E.
    rewrite app_nil_r in E. rewrite E.
    rewrite (IH _ _ (@guarded_tail p a c Hg)).
    cbn [rev]. rewrite <- app_assoc. reflexivity.
Qed.

(** Splitting undoes joining, for one cell at least. *)
Lemma split_join cells :
  cells <> [] ->
  Forall (fun c => guarded false c = true) cells ->
  Str.split (str " | ") (Str.join (str " | ") cells) = cells.
Proof.
  change (str " | ") with [SPACE; PIPE; SPACE]. unfold Str.split.
  induction cells as [|c cells IH]; [congruence|].
  intros _ Hg. inversion Hg as [|? ? Hc Hcs]; subst.
  destruct cells as [|c2 cells].
  - apply (@split_cell_last c false [] Hc).
  - cbn [Str.join]. cbn [app].
    rewrite (@split_cell_sep c false [] _ Hc). cbn [rev app].
    f_equal. apply IH; [discriminate|exact Hcs].
Qed.

Lemma removesuffix_app p s : Str.removesuffix p (s ++ p) = s.
Proof.
  unfold Str.removesuffix. rewrite rev_app_distr.
  assert (H : forall a b, Str.starts_with a (a ++ b) = true).
  { induction a as [|x a IHa]; intros b; simpl; [reflexivity|].
    rewrite N.eqb_refl. apply IHa. }
  rewrite H, length_app, Nat.add_sub.
  rewrite firstn_app, firstn_all, Nat.sub_diag. apply app_nil_r.
Qed.

(** The fields of a line are the cells it was made of. *)
Lemma fields_markdown_line cells :
  cells <> [] ->
  Forall (fun c => guarded false c = true) cells ->
  Spec.fields (markdown_line cells) = cells.
Proof.
  intros Hne Hg. unfold Spec.fields, markdown_line.
  change (Str.removeprefix (str "| ")
            (str "| " ++ Str.join (str " | ") cells ++ str " |"))
    with (Str.join (str " | ") cells ++ str " |").
  rewrite removesuffix_app. apply split_join; assumption.
Qed.

Lemma Forall_escaped row :
  Forall (fun c => guarded false c = true) (map escape_markdown_chars row).
Proof. apply Forall_forall. intros c Hc. apply in_map_iff in Hc.
       destruct Hc as (x & <- & _). apply escape_guarded. Qed.

Lemma nonempty_length {A} (l : list A) : 1 <= length l -> l <> [].
Proof. destruct l; simpl; [lia|discriminate]. Qed.

Lemma lines_field_count s h rest line :
  1 <= length (s h) ->
  In line (fst (markdown_lines s (h :: rest))) ->
  length (Spec.fields line) = length (s h).
Proof.
  intros Hn Hin. rewrite markdown_lines_spec in Hin.
  destruct Hin as [<-|[<-|Hin]].
  - rewrite fields_markdown_line.
    + apply length_map.
    + apply nonempty_length. rewrite length_map. exact Hn.
    + apply Forall_escaped.
  - rewrite fields_markdown_line.
    + apply repeat_length.
    + apply nonempty_length. rewrite repeat_length. exact Hn.
    + apply Forall_forall. intros c Hc. apply repeat_spec in Hc. subst c.
      reflexivity.
  - apply in_map_iff in Hin. destruct Hin as (l & <- & _).
    rewrite fields_markdown_line.
    + rewrite length_map. apply normalize_length.
    + apply nonempty_length. rewrite length_map, normalize_length. exact Hn.
    + apply Forall_escaped.
Qed.

(** *** The lines of the text

    No emitted line holds a line feed, so the lines of the returned
    text are the elements of [markdown_lines]. *)

Lemma tidy_space b s c :
  tidy b s = true -> In c s -> is_space c = true -> c = SPACE.
Proof.
  revert b. induction s as [|d s IH]; intros b Ht Hin Hc; [destruct Hin|].
  simpl in Ht. destruct Hin as [->|Hin].
  - rewrite Hc in Ht. apply andb_prop in Ht. destruct Ht as [Ht _].
    apply andb_prop in Ht. destruct Ht as [Ht _]. apply N.eqb_eq. exact Ht.
  - destruct (is_space d).
    + apply andb_prop in Ht. destruct Ht as [_ Ht]. exact (IH true Ht Hin Hc).
    + exact (IH false Ht Hin Hc).
Qed.

Lemma escape_tidy t : tidy false (escape_markdown_chars t) = true.
Proof.
  rewrite escape_markdown_chars_eq.
  apply tidy_rstrip, (tidy_lstrip false false), sub_spaces_tidy.
Qed.

Lemma escape_no_LF t : ~ In LF (escape_markdown_chars t).
Proof.
  intros H. pose proof (@tidy_space false _ LF (escape_tidy t) H eq_refl) as E.
  discriminate E.
Qed.

Lemma join_in c sep xs :
  In c (Str.join sep xs) -> In c sep \/ exists x, In x xs /\ In c x.
Proof.
  induction xs as [|x xs IH]; [intros []|].
  destruct xs as [|y xs].
  - intros H. right. exists x. split; [left; reflexivity|exact H].
  - cbn [Str.join]. intros H. apply in_app_or in H. destruct H as [H|H].
    + right. exists x. split; [left; reflexivity|exact H].
    + apply in_app_or in H. destruct H as [H|H]; [left; exact H|].
      destruct (IH H) as [Hs|(z & Hz & Hc)]; [left; exact Hs|].
      right. exists z. split; [right; exact Hz|exact Hc].
Qed.

Lemma markdown_line_no_LF cells :
  Forall (fun c => ~ In LF c) cells -> ~ In LF (markdown_line cells).
Proof.
  intros Hc H. unfold markdown_line in H.
  apply in_app_or in H. destruct H as [H|H].
  - simpl in H. destruct H as [H|[H|[]]]; discriminate H.
  - apply in_app_or in H. destruct H as [H|H].
    + apply join_in in H. destruct H as [H|(x & Hx & H)].
      * simpl in H. destruct H as [H|[H|[H|[]]]]; discriminate H.
      * rewrite Forall_forall in Hc. exact (Hc x Hx H).
    + simpl in H. destruct H as [H|[H|[]]]; discriminate H.
Qed.

Lemma Forall_escaped_no_LF row :
  Forall (fun c => ~ In LF c) (map escape_markdown_chars row).
Proof.
  apply Forall_forall. intros c Hc. apply in_map_iff in Hc.
  destruct Hc as (x & <- & _). apply escape_no_LF.
Qed.

Lemma markdown_lines_no_LF s h rest :
  Forall (fun line => ~ In LF line) (fst (markdown_lines s (h :: rest))).
Proof.
  rewrite markdown_lines_spec.
  constructor; [|constructor].
  - apply markdown_line_no_LF, Forall_escaped_no_LF.
  - apply markdown_line_no_LF, Forall_forall.
    intros c Hc. apply repeat_spec in Hc. subst c.
    simpl. intros [H|[H|[H|[]]]]; discriminate H.
  - apply Forall_forall. intros line Hl. apply in_map_iff in Hl.
    destruct Hl as (l & <- & _).
    apply markdown_line_no_LF, Forall_escaped_no_LF.
Qed.

Lemma split_line c : forall acc r,
  ~ In LF c ->
  Str.split_from [LF] 0 acc (c ++ LF :: r)
  = (rev acc ++ c) :: Str.split_from [LF] 0 [] r.
Proof.
  induction c as [|a c IH]; intros acc r Hc.
  - rewrite app_nil_r. reflexivity.
  - cbn [app Str.split_from Str.starts_with].
    destruct (N.eqb_spec LF a) as [E|_].
    + exfalso. apply Hc. left. symmetry. exact E.
    + cbn [andb]. rewrite IH by (intros H; apply Hc; right; exact H).
      cbn [rev]. rewrite <- app_assoc. reflexivity.
Qed.

Lemma split_line_last c : forall acc,
  ~ In LF c -> Str.split_from [LF] 0 acc c = [rev acc ++ c].
Proof.
  induction c as [|a c IH]; intros acc Hc.
  - rewrite app_nil_r. reflexivity.
  - cbn [Str.split_from Str.starts_with].
    destruct (N.eqb_spec LF a) as [E|_].
    + exfalso. apply Hc. left. symmetry. exact E.
    + cbn [andb]. rewrite IH by (intros H; apply Hc; right; exact H).
      cbn [rev]. rewrite <- app_assoc. reflexivity.
Qed.

Lemma split_lines lines :
  lines <> [] ->
  Forall (fun line => ~ In LF line) lines ->
  Str.split [LF] (Str.join [LF] lines) = lines.
Proof.
  unfold Str.split.
  induction lines as [|x lines IH]; [congruence|].
  intros _ H. inversion H as [|? ? Hx Hl]; subst.
  destruct lines as [|y lines].
  - apply (split_line_last x [] Hx).
  - cbn [Str.join]. cbn [app].
    rewrite (split_line x [] _ Hx). cbn [rev app].
    f_equal. apply IH; [discriminate|exact Hl].
Qed.

Lemma text_lines s h rest :
  Str.split [LF] (fst (convert_to_markdown_table s (h :: rest)))
  = fst (markdown_lines s (h :: rest)).
Proof.
  rewrite convert_to_markdown_table_lines. apply split_lines.
  - rewrite markdown_lines_spec. discriminate.
  - apply markdown_lines_no_LF.
Qed.

(** C5, amended.  For a table whose header has at least one field, every
    line of the text that [convert_to_markdown_table] returns (header
    line, separator line, data lines), once ["| "] and [" |"] are
    removed at its ends and the rest is split on [" | "], has as many
    fields as the header. *)
Theorem emitted_lines_field_count s h rest line :
  1 <= length (s h) ->
  In line (Str.split [LF] (fst (convert_to_markdown_table s (h :: rest)))) ->
  length (Spec.fields line) = length (s h).
Proof.
  intros Hn Hin. rewrite text_lines in Hin.
  exact (lines_field_count s h rest line Hn Hin).
Qed.

Lemma emitted_lines_field_count_witness :
  let '(s, rows) := alloc [[str "a"; str "b|c"]; [str "1"]] in
  1 <= length (s 0) /\
  In (str "| 1 |  |") (Str.split [LF] (fst (convert_to_markdown_table s rows))) /\
  length (Spec.fields (str "| 1 |  |")) = length (s 0).
Proof.
  split; [simpl; lia|].
  split; [right; right; left; reflexivity|].
  apply (@emitted_lines_field_count
           (fst (alloc [[str "a"; str "b|c"]; [str "1"]])) 0 [1]
           (str "| 1 |  |")).
  - simpl. lia.
  - right. right. left. reflexivity.
Defined.

(** The claim C5 as stated fails when the header has no field: the
    header line is ["|  |"], whose remainder after stripping is the
    empty string, and splitting the empty string yields one field. *)
Lemma empty_header_field_count :
  let '(s, rows) := alloc [[]] in
  exists line,
    In line (Str.split [LF] (fst (convert_to_markdown_table s rows))) /\
    line = str "|  |" /\
    length (Spec.fields line) = 1 /\ length (s 0) = 0 /\
    length (Spec.fields line) <> length (s 0).
Proof.
  exists (str "|  |"). repeat split; [left; reflexivity | discriminate].
Qed.

(** ** The loader *)

Example sample_stems :
  Sample.path_stem (str "utf8.csv") = str "utf8" /\
  Sample.path_stem (str "dir/a.b.csv") = str "a.b" /\
  Sample.path_stem (str "/abs/x.csv") = str "x" /\
  Sample.path_stem (str ".hidden") = str ".hidden" /\
  Sample.path_stem (str "a.") = str "a." /\
  Sample.path_stem (str "x..csv") = str "x." /\
  Sample.path_stem (str "plain") = str "plain".
Proof. repeat split. Qed.

Example sample_decodings :
  Sample.decode utf_8 Sample.sjis_file = None /\
  Sample.decode shift_jis Sample.sjis_file = Some Sample.content /\
  Sample.decode utf_8 Sample.utf8_file = Some Sample.content.
Proof. repeat split. Qed.

Section Loader.

Variable W : World.

Lemma read_with_run name enc b st :
  read_with W name enc b st = (attempt W enc b, after_open name enc st).
Proof.
  unfold read_with, attempt, Py.bind, Py.log_open, Py.lift, after_open.
  destruct (file_read W enc b 1024) as [e|sample]; [reflexivity|].
  destruct (sniff_delimiter W sample); reflexivity.
Qed.

(** [read_csv] on an existing file: one UTF-8 attempt, and a Shift-JIS
    attempt after it exactly when the first raised
    [UnicodeDecodeError]. *)
Lemma read_csv_run name b st :
  input_file W name = Some b ->
  read_csv W name st
  = match attempt W utf_8 b with
    | inl UnicodeDecodeError =>
        (attempt W shift_jis b,
         after_open name shift_jis (after_open name utf_8 st))
    | r => (r, after_open name utf_8 st)
    end.
Proof.
  intros Hb. unfold read_csv, Py.try_except. rewrite Hb, read_with_run.
  destruct (attempt W utf_8 b) as [[]|rows]; simpl;
    rewrite ?read_with_run; reflexivity.
Qed.

Lemma read_csv_missing name st :
  input_file W name = None ->
  read_csv W name st = (inl FileNotFoundError, st).
Proof. intros H. unfold read_csv. rewrite H. reflexivity. Qed.

Lemma attempt_reads_as enc b t :
  reads_as W enc b t ->
  attempt W enc b
  = match sniff_delimiter W (firstn 1024 t) with
    | None => inl CsvError
    | Some d =>
        match csv_rows W d t with
        | Some rows => inr rows
        | None => inl CsvError
        end
    end.
Proof.
  intros [Hs Hr]. unfold attempt. rewrite Hs.
  destruct (sniff_delimiter W (firstn 1024 t)); [apply Hr|reflexivity].
Qed.


(** What [convert] returns and writes is decided by the outcome of
    [read_csv]. *)
Lemma convert_run name out st :
  let st1 := snd (Py.print (MsgReading name) st) in
  let r := read_csv W name st1 in
  let res := convert W name out st in
  match fst r with
  | inl e =>
      fst res = inr None /\ written (snd res) = written (snd r) /\
      stdout (snd res) = stdout (snd r) ++ [MsgError e]
  | inr [] =>
      fst res = inr None /\ written (snd res) = written (snd r) /\
      stdout (snd res) = stdout (snd r) ++ [MsgWarningEmpty]
  | inr (header :: more) =>
      let rows := header :: more in
      let markdown :=
        fst (convert_to_markdown_table (fst (alloc rows)) (snd (alloc rows))) in
      let filename :=
        match out with
        | None => stem W name ++ str ".md"
        | Some given => given
        end in
      let path := output_path W filename in
      if mkdir_ok W && writable W path && write_ok W path markdown
      then fst res = inr (Some path) /\
           written (snd res) = written (snd r) ++ [(path, markdown)]
      else fst res = inr None /\ written (snd res) = written (snd r)
  end.
Proof.
  intros st1 r res. subst res. unfold convert, Py.try_except, Py.bind.
  fold st1. change (Py.print (MsgReading name) st)
    with (inr tt : exn + unit, st1). cbn iota. fold r.
  destruct r as [[e|[|header more]] st2]; cbn [fst snd].
  - repeat split.
  - repeat split.
  - cbn zeta. unfold save_markdown, alloc, Py.bind, Py.log_open.
    cbn beta iota zeta. cbn [fst snd].
    destruct (mkdir_ok W); [|repeat split].
    destruct (writable W _); [|repeat split].
    cbn [andb]. destruct (write_ok W _ _); repeat split.
Qed.

End Loader.

Lemma read_csv_effects W name st :
  stdout (snd (read_csv W name st)) = stdout st /\
  written (snd (read_csv W name st)) = written st.
Proof.
  destruct (input_file W name) as [b|] eqn:Hb.
  - rewrite (read_csv_run W name st Hb).
    destruct (attempt W utf_8 b) as [[]|rows]; split; reflexivity.
  - rewrite (read_csv_missing W name st Hb). split; reflexivity.
Qed.

Lemma attempt_not_empty W enc b :
  sniff_delimiter W [] = None ->
  (forall d, reader_rows W enc b d = inr [] ->
             file_read W enc b 1024 = inr []) ->
  attempt W enc b <> inr [].
Proof.
  intros Hsniff Hreader. unfold attempt.
  destruct (file_read W enc b 1024) as [e|sample] eqn:Hsample; [discriminate|].
  destruct (sniff_delimiter W sample) as [d|] eqn:Hd; [|discriminate].
  intros Hrows. specialize (Hreader d Hrows).
  injection Hreader as ->. congruence.
Qed.

(** With a sniffer that gives up on an empty sample, as [csv.Sniffer]
    does, and a reader that yields no row from an empty file only,
    [read_csv] never returns an empty table: the branch [if not rows] of
    [convert] is out of reach. *)
Lemma read_csv_never_empty W name st :
  sniff_delimiter W [] = None ->
  (forall enc b d, reader_rows W enc b d = inr [] ->
                   file_read W enc b 1024 = inr []) ->
  fst (read_csv W name st) <> inr [].
Proof.
  intros Hsniff Hreader.
  destruct (input_file W name) as [b|] eqn:Hb.
  - rewrite (read_csv_run W name st Hb).
    pose proof (@attempt_not_empty W utf_8 b Hsniff (Hreader utf_8 b)) as H8.
    pose proof (@attempt_not_empty W shift_jis b Hsniff (Hreader shift_jis b)) as Hj.
    destruct (attempt W utf_8 b) as [[]|rows]; cbn [fst]; try discriminate;
      assumption.
  - rewrite (read_csv_missing W name st Hb). discriminate.
Qed.

(** C7, at the failing input.  For an existing file without content the
    sample is empty, the sniffer raises [csv.Error], and so does
    [read_csv]: no empty table is returned, and [convert] reports an
    error, not the warning for an empty file. *)
Theorem read_csv_empty_file_raises W name b out st :
  input_file W name = Some b ->
  file_read W utf_8 b 1024 = inr [] ->
  sniff_delimiter W [] = None ->
  fst (read_csv W name st) = inl CsvError /\
  fst (convert W name out st) = inr None /\
  stdout (snd (convert W name out st))
  = stdout st ++ [MsgReading name; MsgError CsvError].
Proof.
  intros Hb Hread Hsniff.
  assert (Ha : attempt W utf_8 b = inl CsvError).
  { unfold attempt. rewrite Hread, Hsniff. reflexivity. }
  split.
  - rewrite (read_csv_run W name st Hb), Ha. reflexivity.
  - pose proof (convert_run W name out st) as H. cbn zeta in H.
    rewrite (read_csv_run W name _ Hb), Ha in H. cbn [fst snd] in H.
    destruct H as (H1 & _ & H3). split; [exact H1|].
    rewrite H3. cbn. rewrite <- app_assoc. reflexivity.
Qed.

Lemma read_csv_empty_file_raises_witness :
  let W := Sample.world Sample.comma_sniffer in
  input_file W (str "empty.csv") = Some [] /\
  fst (read_csv W (str "empty.csv") no_effects) = inl CsvError.
Proof.
  split; [reflexivity|].
  apply (@read_csv_empty_file_raises
           (Sample.world Sample.comma_sniffer) (str "empty.csv") [] None
           no_effects); reflexivity.
Defined.

Lemma main_run W prog name more st :
  let out := match more with [] => None | given :: _ => Some given end in
  main W (prog :: name :: more) st
  = (match fst (convert W name out st) with
     | inl e => inl e
     | inr (Some _) => inr 0
     | inr None => inr 1
     end, snd (convert W name out st)).
Proof.
  cbn zeta. unfold main, Py.bind.
  destruct (convert W name _ st) as [[e|[path|]] st']; reflexivity.
Qed.

(** When [read_csv] gives no row, by an exception or by an empty table,
    [convert] returns [None], writes nothing and opens nothing more. *)
Lemma convert_no_rows W name out st :
  let r := read_csv W name (snd (Py.print (MsgReading name) st)) in
  (forall header more, fst r <> inr (header :: more)) ->
  fst (convert W name out st) = inr None /\
  written (snd (convert W name out st)) = written st /\
  opened (snd (convert W name out st)) = opened (snd r).
Proof.
  intros r Hr.
  destruct (read_csv_effects W name (snd (Py.print (MsgReading name) st)))
    as [_ Hw].
  change (written (snd (Py.print (MsgReading name) st)))
    with (written st) in Hw.
  fold r in Hw. rewrite <- Hw.
  unfold convert, Py.try_except, Py.bind.
  change (Py.print (MsgReading name) st)
    with (inr tt : exn + unit, snd (Py.print (MsgReading name) st)).
  cbn iota. fold r. clear Hw.
  destruct r as [[e|[|header more]] st2]; cbn [fst snd] in *.
  - repeat split.
  - repeat split.
  - exfalso. exact (Hr header more eq_refl).
Qed.

(** C8, amended.  When the parsed file yields zero rows (the csv parser
    finds no row in the text of the input file), the program produces
    no output file, and the process exit code is 1. *)
Theorem empty_input_exit_status W prog name more st b t :
  input_file W name = Some b ->
  reads_as W utf_8 b t ->
  (forall d, csv_rows W d t = Some []) ->
  let run := main W (prog :: name :: more) st in
  fst run = inr 1 /\
  written (snd run) = written st /\
  opened (snd run) = opened st ++ [(name, utf_8)].
Proof.
  intros Hb Ht Hrows run. subst run. rewrite main_run. cbn [fst snd].
  set (out := match more with [] => None | given :: _ => Some given end).
  set (st1 := snd (Py.print (MsgReading name) st)).
  assert (Ha : attempt W utf_8 b = inl CsvError \/ attempt W utf_8 b = inr []).
  { rewrite (attempt_reads_as Ht).
    destruct (sniff_delimiter W (firstn 1024 t)) as [d|]; [|left; reflexivity].
    rewrite (Hrows d). right. reflexivity. }
  assert (Hr : read_csv W name st1
               = (attempt W utf_8 b, after_open name utf_8 st1)).
  { rewrite (read_csv_run W name st1 Hb).
    destruct Ha as [-> | ->]; reflexivity. }
  destruct (convert_no_rows W name out st) as (H1 & H2 & H3).
  - fold st1. rewrite Hr. cbn [fst].
    intros header rest. destruct Ha as [-> | ->]; discriminate.
  - fold st1 in H3. rewrite Hr in H3. rewrite H1, H2, H3.
    repeat split.
Qed.

Lemma empty_input_exit_status_witness :
  let W := Sample.world Sample.comma_sniffer in
  let argv := [str "csv2md.py"; str "empty.csv"] in
  fst (main W argv no_effects) = inr 1 /\
  written (snd (main W argv no_effects)) = [] /\
  opened (snd (main W argv no_effects)) = [(str "empty.csv", utf_8)].
Proof.
  apply (@empty_input_exit_status
           (Sample.world Sample.comma_sniffer) (str "csv2md.py")
           (str "empty.csv") [] no_effects [] []).
  - reflexivity.
  - split; [reflexivity|]. intros d. reflexivity.
  - intros d. reflexivity.
Defined.

(** The claim C8 as stated fails on an empty input file, in which the
    parser finds no row: [main] leaves with 1, not 0, and what the
    program prints after the name of the file is the error of the
    sniffer, not the warning. *)
Lemma empty_input_exits_with_1 :
  let W := Sample.world Sample.comma_sniffer in
  let argv := [str "csv2md.py"; str "empty.csv"] in
  input_file W (str "empty.csv") = Some [] /\
  reads_as W utf_8 [] [] /\
  (forall d, csv_rows W d [] = Some []) /\
  fst (main W argv no_effects) = inr 1 /\
  fst (main W argv no_effects) <> inr 0 /\
  stdout (snd (main W argv no_effects))
  = [MsgReading (str "empty.csv"); MsgError CsvError].
Proof.
  repeat split; try discriminate. 
Qed.




(* ================================================================== *)
(** * Part III: further properties of the code                         *)
(* ================================================================== *)

(** ** [escape_markdown_chars]: the shape of an escaped cell *)

Lemma tidy_no_adjacent a : forall b c d rest,
  tidy b (a ++ c :: d :: rest) = true ->
  is_space c = true -> is_space d = true -> False.
Proof.
  induction a as [|x a IH]; intros b c d rest Ht Hc Hd.
  - simpl in Ht. rewrite Hc, Hd in Ht.
    apply andb_prop in Ht. destruct Ht as [_ Ht].
    apply andb_prop in Ht. destruct Ht as [Ht _].
    apply andb_prop in Ht. destruct Ht as [_ Ht]. discriminate Ht.
  - cbn [app tidy] in Ht. destruct (is_space x).
    + apply andb_prop in Ht. destruct Ht as [_ Ht]. exact (IH _ _ _ _ Ht Hc Hd).
    + exact (IH _ _ _ _ Ht Hc Hd).
Qed.

Lemma escape_single_spaced t : single_spaced (escape_markdown_chars t).
Proof.
  assert (Ht : tidy false (escape_markdown_chars t) = true)
    by apply escape_tidy.
  repeat split.
  - intros c. apply (@tidy_space false (escape_markdown_chars t) c Ht).
  - intros a c d b E. rewrite E in Ht. exact (tidy_no_adjacent a _ _ _ _ Ht).
  - rewrite escape_markdown_chars_eq.
    destruct (strip_strips (Str.re_sub_spaces
                (Spec.breaks_to_spaces (Spec.escape_pipes t))))
      as (_ & _ & _ & _ & _ & H & _). exact H.
  - rewrite escape_markdown_chars_eq.
    destruct (strip_strips (Str.re_sub_spaces
                (Spec.breaks_to_spaces (Spec.escape_pipes t))))
      as (_ & _ & _ & _ & _ & _ & H). exact H.
Qed.

(** X1. An escaped cell fits on one line of a table: it holds neither CR
    nor LF, its only white space is the SPACE character, never two in a
    row, and never at either end. *)
Theorem escaped_cell_white_space t :
  let e := escape_markdown_chars t in
  ~ In CR e /\ ~ In LF e /\ single_spaced e.
Proof.
  intros e. pose proof (escape_single_spaced t) as H. fold e in H.
  repeat split; try apply H.
  - intros Hin. destruct H as (Hw & _). specialize (Hw CR Hin eq_refl).
    discriminate Hw.
  - intros Hin. destruct H as (Hw & _). specialize (Hw LF Hin eq_refl).
    discriminate Hw.
Qed.

Lemma guarded_before_pipe a : forall p b,
  guarded p (a ++ PIPE :: b) = true ->
  (a = [] /\ p = true) \/ exists a', a = a' ++ [BACKSLASH].
Proof.
  induction a as [|x a IH]; intros p b H.
  - left. simpl in H. apply andb_prop in H. destruct H as [H _].
    split; [reflexivity|exact H].
  - right. cbn [app guarded] in H. apply andb_prop in H. destruct H as [_ H].
    destruct (IH _ _ H) as [[-> Hx]|[a' ->]].
    + apply N.eqb_eq in Hx. subst x. exists []. reflexivity.
    + exists (x :: a'). reflexivity.
Qed.

(** X2. In an escaped cell every pipe stands right after a backslash:
    no cell begins with a pipe or holds a pipe after another
    character. *)
Theorem escaped_cell_pipes t a b :
  escape_markdown_chars t = a ++ PIPE :: b ->
  exists a', a = a' ++ [BACKSLASH].
Proof.
  intros E. pose proof (escape_guarded t) as H. rewrite E in H.
  destruct (guarded_before_pipe a _ _ H) as [[_ Hp]|Ha];
    [discriminate Hp | exact Ha].
Qed.

Lemma escaped_cell_pipes_witness :
  escape_markdown_chars (str "x|y") = str "x\" ++ PIPE :: str "y" /\
  exists a', str "x\" = a' ++ [BACKSLASH].
Proof.
  split; [reflexivity|].
  apply (@escaped_cell_pipes (str "x|y") (str "x\") (str "y")). reflexivity.
Defined.

(** *** Cells that vanish *)

Lemma escape_pipes_white t :
  forallb is_space (Spec.escape_pipes t) = forallb is_space t.
Proof.
  induction t as [|c t IH]; simpl; [reflexivity|].
  destruct (c =? PIPE)%N eqn:E.
  - apply N.eqb_eq in E. subst c. reflexivity.
  - simpl. rewrite IH. reflexivity.
Qed.

Lemma breaks_to_spaces_white t :
  forallb is_space (Spec.breaks_to_spaces t) = forallb is_space t.
Proof.
  induction t as [|c t IH]; simpl; [reflexivity|].
  rewrite IH. f_equal.
  destruct (c =? CR)%N eqn:E1;
    [apply N.eqb_eq in E1; subst c; reflexivity|].
  destruct (c =? LF)%N eqn:E2;
    [apply N.eqb_eq in E2; subst c; reflexivity|].
  reflexivity.
Qed.

Lemma sub_spaces_white b s :
  forallb is_space (Str.sub_spaces b s) = forallb is_space s.
Proof.
  revert b. induction s as [|c s IH]; intros b; simpl; [reflexivity|].
  destruct (is_space c) eqn:Ec.
  - destruct b; simpl; apply IH.
  - simpl. rewrite Ec. reflexivity.
Qed.

Lemma lstrip_white s : forallb is_space s = true -> Str.lstrip s = [].
Proof.
  induction s as [|c s IH]; simpl; [reflexivity|].
  intros H. apply andb_prop in H. destruct H as [Hc Hs].
  rewrite Hc. exact (IH Hs).
Qed.

Lemma strip_empty s : Str.strip s = [] <-> forallb is_space s = true.
Proof.
  split.
  - intros E. destruct (strip_strips s) as (a & b & Es & Ha & Hb & _).
    rewrite E in Es. rewrite Es, forallb_app, Ha. exact Hb.
  - intros H. unfold Str.strip. rewrite (lstrip_white s H). reflexivity.
Qed.

(** X3. A cell escapes to the empty string exactly when it is empty or
    made of white space only. *)
Theorem escaped_cell_empty t :
  escape_markdown_chars t = [] <-> forallb is_space t = true.
Proof.
  rewrite escape_markdown_chars_eq, strip_empty.
  unfold Str.re_sub_spaces.
  rewrite sub_spaces_white, breaks_to_spaces_white, escape_pipes_white.
  reflexivity.
Qed.

(** *** Nothing visible is lost *)

Lemma escape_pipes_count t c :
  count_occ N.eq_dec (Spec.escape_pipes t) c
  = count_occ N.eq_dec t c
    + (if (c =? BACKSLASH)%N then count_occ N.eq_dec t PIPE else 0).
Proof.
  induction t as [|x t IH]; simpl.
  - destruct (c =? BACKSLASH)%N; reflexivity.
  - destruct (N.eqb_spec x PIPE) as [->|Hx]; cbn [app count_occ];
      rewrite IH; count_cases.
Qed.

Lemma breaks_to_spaces_count t c :
  is_space c = false ->
  count_occ N.eq_dec (Spec.breaks_to_spaces t) c = count_occ N.eq_dec t c.
Proof.
  intros Hc. unfold Spec.breaks_to_spaces.
  induction t as [|x t IH]; [reflexivity|].
  cbn [map count_occ]. rewrite IH.
  destruct (N.eqb_spec x CR) as [->|H1]; cbn [orb].
  - destruct (N.eq_dec SPACE c) as [<-|_]; [discriminate Hc|].
    destruct (N.eq_dec CR c) as [<-|_]; [discriminate Hc|reflexivity].
  - destruct (N.eqb_spec x LF) as [->|H2]; [|reflexivity].
    destruct (N.eq_dec SPACE c) as [<-|_]; [discriminate Hc|].
    destruct (N.eq_dec LF c) as [<-|_]; [discriminate Hc|reflexivity].
Qed.

Lemma sub_spaces_count b s c :
  is_space c = false ->
  count_occ N.eq_dec (Str.sub_spaces b s) c = count_occ N.eq_dec s c.
Proof.
  intros Hc. revert b.
  induction s as [|x s IH]; intros b; [reflexivity|].
  cbn [Str.sub_spaces count_occ].
  destruct (is_space x) eqn:Ex.
  - destruct (N.eq_dec x c) as [<-|_]; [congruence|].
    destruct b; [apply IH|].
    cbn [count_occ].
    destruct (N.eq_dec SPACE c) as [<-|_]; [discriminate Hc|apply IH].
  - cbn [count_occ]. rewrite IH. reflexivity.
Qed.

Lemma lstrip_count s c :
  is_space c = false ->
  count_occ N.eq_dec (Str.lstrip s) c = count_occ N.eq_dec s c.
Proof.
  intros Hc. induction s as [|x s IH]; [reflexivity|].
  cbn [Str.lstrip]. destruct (is_space x) eqn:Ex; [|reflexivity].
  cbn [count_occ].
  destruct (N.eq_dec x c) as [<-|_]; [congruence|exact IH].
Qed.

Lemma rstrip_count s c :
  is_space c = false ->
  count_occ N.eq_dec (Str.rstrip s) c = count_occ N.eq_dec s c.
Proof.
  intros Hc. induction s as [|x s IH]; [reflexivity|].
  cbn [Str.rstrip count_occ]. rewrite <- IH.
  destruct (Str.rstrip s) as [|y r].
  - destruct (is_space x) eqn:Ex.
    + destruct (N.eq_dec x c) as [<-|_]; [congruence|reflexivity].
    + reflexivity.
  - reflexivity.
Qed.

Lemma escape_count t c :
  is_space c = false ->
  count_occ N.eq_dec (escape_markdown_chars t) c
  = count_occ N.eq_dec t c + (if (c =? BACKSLASH)%N then count_occ N.eq_dec t PIPE else 0).
Proof.
  intros Hc. rewrite escape_markdown_chars_eq. unfold Str.strip, Str.re_sub_spaces.
  rewrite rstrip_count, lstrip_count, sub_spaces_count, breaks_to_spaces_count
    by exact Hc.
  apply escape_pipes_count.
Qed.

Lemma sub_spaces_length b s : length (Str.sub_spaces b s) <= length s.
Proof.
  revert b. induction s as [|x s IH]; intros b; simpl; [lia|].
  pose proof (IH true). pose proof (IH false).
  destruct (is_space x); [destruct b|]; simpl; lia.
Qed.

Lemma rstrip_length s : length (Str.rstrip s) <= length s.
Proof.
  induction s as [|x s IH]; simpl; [lia|].
  destruct (Str.rstrip s); [destruct (is_space x)|]; simpl in *; lia.
Qed.

Lemma escape_pipes_length t :
  length (Spec.escape_pipes t) = length t + count_occ N.eq_dec t PIPE.
Proof.
  induction t as [|x t IH]; [reflexivity|].
  cbn [Spec.escape_pipes flat_map count_occ length].
  fold (Spec.escape_pipes t).
  destruct (N.eqb_spec x PIPE) as [->|Hx]; cbn [app length]; rewrite IH;
    count_cases.
Qed.

(** X4. Escaping loses no visible character: every character that is
    not white space occurs in the escaped cell as often as in the cell,
    the backslash once more for every pipe.  The escaped cell is longer
    than the cell by the number of its pipes at most. *)
Theorem escaped_cell_content t :
  (forall c, is_space c = false -> c <> BACKSLASH ->
             count_occ N.eq_dec (escape_markdown_chars t) c = count_occ N.eq_dec t c) /\
  count_occ N.eq_dec (escape_markdown_chars t) BACKSLASH
  = count_occ N.eq_dec t BACKSLASH + count_occ N.eq_dec t PIPE /\
  length (escape_markdown_chars t) <= length t + count_occ N.eq_dec t PIPE.
Proof.
  repeat split.
  - intros c Hc Hb. rewrite escape_count by exact Hc.
    apply N.eqb_neq in Hb. rewrite Hb. lia.
  - rewrite escape_count by reflexivity. reflexivity.
  - rewrite escape_markdown_chars_eq. unfold Str.strip, Str.re_sub_spaces.
    pose proof (rstrip_length
                  (Str.lstrip (Str.sub_spaces false
                     (Spec.breaks_to_spaces (Spec.escape_pipes t))))).
    pose proof (lstrip_length
                  (Str.sub_spaces false
                     (Spec.breaks_to_spaces (Spec.escape_pipes t)))).
    pose proof (sub_spaces_length false
                  (Spec.breaks_to_spaces (Spec.escape_pipes t))).
    unfold Spec.breaks_to_spaces in *. rewrite length_map in *.
    rewrite escape_pipes_length in *. lia.
Qed.

(** *** Cells that escaping leaves alone *)

Lemma shape_tidy t : forall b,
  (forall c, In c t -> is_space c = true -> c = SPACE) ->
  (forall a c d r, t = a ++ c :: d :: r ->
                   is_space c = true -> is_space d = true -> False) ->
  (b = true -> Spec.starts_clean t) ->
  tidy b t = true.
Proof.
  induction t as [|x t IH]; intros b Hw Hadj Hb; [reflexivity|].
  cbn [tidy]. destruct (is_space x) eqn:Ex.
  - rewrite (Hw x (or_introl eq_refl) Ex). rewrite N.eqb_refl.
    destruct b.
    + specialize (Hb eq_refl). simpl in Hb. congruence.
    + cbn [negb andb]. apply IH.
      * intros c Hc. apply Hw. right. exact Hc.
      * intros a c d r E. apply (Hadj (x :: a) c d r). rewrite E. reflexivity.
      * intros _. destruct t as [|y t]; [exact I|].
        simpl. destruct (is_space y) eqn:Ey; [|reflexivity].
        exfalso. exact (Hadj [] x y t eq_refl Ex Ey).
  - apply IH.
    + intros c Hc. apply Hw. right. exact Hc.
    + intros a c d r E. apply (Hadj (x :: a) c d r). rewrite E. reflexivity.
    + discriminate.
Qed.

Lemma single_spaced_tidy t : single_spaced t -> tidy false t = true.
Proof.
  intros (Hw & Hadj & _ & _). apply shape_tidy; [exact Hw|exact Hadj|discriminate].
Qed.

(** X5. The cells that escaping leaves unchanged are exactly the cells
    without a pipe whose white space is single SPACE characters between
    other characters. *)
Theorem escape_fixed_points t :
  escape_markdown_chars t = t <-> ~ In PIPE t /\ single_spaced t.
Proof.
  split.
  - intros E. split.
    + apply (count_occ_not_In N.eq_dec).
      pose proof (@escape_count t BACKSLASH eq_refl) as H.
      rewrite E in H. cbn in H. lia.
    + rewrite <- E. apply escape_single_spaced.
  - intros [Hp Hs]. pose proof (single_spaced_tidy Hs) as Ht.
    destruct Hs as (_ & _ & Hl & Hr).
    rewrite escape_markdown_chars_eq, (escape_pipes_none _ Hp).
    rewrite (tidy_breaks false t Ht).
    unfold Str.re_sub_spaces. rewrite (tidy_sub_spaces false t Ht).
    apply strip_fixed; [exact Hl|]. apply rstrip_clean. exact Hr.
Qed.

(** ** [convert_to_markdown_table]: the table as a whole *)

(** X6. The text of a non-empty table has one line for the header, one
    for the separator and one for each data row, whatever the rows
    hold. *)
Theorem table_line_count s h rest :
  length (Str.split [LF] (fst (convert_to_markdown_table s (h :: rest))))
  = 2 + length rest.
Proof.
  rewrite text_lines, markdown_lines_spec. simpl. rewrite length_map.
  reflexivity.
Qed.

(** X7. When the header has a field at least, reading the emitted lines
    back gives the escaped cells: those of the header, the tokens
    ["---"], then for each data row the escaped cells of the row
    normalized to the header length. *)
Theorem table_fields s h rest :
  1 <= length (s h) ->
  let n := length (s h) in
  map Spec.fields
      (Str.split [LF] (fst (convert_to_markdown_table s (h :: rest))))
  = map escape_markdown_chars (s h)
    :: repeat (str "---") n
    :: map (fun l => map escape_markdown_chars (Spec.normalize n (s l))) rest.
Proof.
  intros Hn n. rewrite text_lines, markdown_lines_spec. fold n.
  cbn [map]. f_equal; [|f_equal].
  - apply fields_markdown_line; [|apply Forall_escaped].
    apply nonempty_length. rewrite length_map. exact Hn.
  - apply fields_markdown_line.
    + apply nonempty_length. rewrite repeat_length. exact Hn.
    + apply Forall_forall. intros c Hc. apply repeat_spec in Hc. subst c.
      reflexivity.
  - rewrite map_map. apply map_ext. intros l.
    apply fields_markdown_line; [|apply Forall_escaped].
    apply nonempty_length. rewrite length_map, normalize_length. exact Hn.
Qed.

Lemma table_fields_witness :
  let '(s, rows) := alloc [[str "a"; str "b|c"]; [str "1"]] in
  1 <= length (s 0) /\
  map Spec.fields (Str.split [LF] (fst (convert_to_markdown_table s rows)))
  = [[str "a"; str "b\|c"]; [str "---"; str "---"]; [str "1"; []]].
Proof.
  split; [simpl; lia|].
  apply (@table_fields (fst (alloc [[str "a"; str "b|c"]; [str "1"]])) 0 [1]).
  simpl. lia.
Defined.

Lemma final_store s h rest l :
  snd (convert_to_markdown_table s (h :: rest)) l
  = if in_dec Nat.eq_dec l rest then padded (length (s h)) (s l) else s l.
Proof.
  rewrite convert_to_markdown_table_store.
  destruct (data_lines_spec rest s h) as [_ H]. apply H.
Qed.

Lemma final_store_header s h rest :
  snd (convert_to_markdown_table s (h :: rest)) h = s h.
Proof.
  rewrite final_store. destruct (in_dec Nat.eq_dec h rest); [|reflexivity].
  apply padded_long. lia.
Qed.

(** X8. Converting the same table a second time, with its rows as the
    first call left them, returns the same text and changes no row any
    more. *)
Theorem convert_to_markdown_table_again s h rest :
  let first := convert_to_markdown_table s (h :: rest) in
  let second := convert_to_markdown_table (snd first) (h :: rest) in
  fst second = fst first /\ forall l, snd second l = snd first l.
Proof.
  intros first second. subst second first.
  set (s1 := snd (convert_to_markdown_table s (h :: rest))).
  assert (Hh : s1 h = s h) by apply final_store_header.
  assert (H1 : forall l, s1 l = if in_dec Nat.eq_dec l rest
                                then padded (length (s h)) (s l) else s l)
    by (intros l; apply final_store).
  split.
  - rewrite !convert_to_markdown_table_lines, !markdown_lines_spec, Hh.
    do 3 f_equal. apply map_ext. intros l. rewrite H1.
    destruct (in_dec Nat.eq_dec l rest); [|reflexivity].
    rewrite normalize_padded. reflexivity.
  - intros l. rewrite final_store, Hh, H1.
    destruct (in_dec Nat.eq_dec l rest); [|reflexivity].
    apply padded_idempotent.
Qed.

Lemma map_nth_seq {A} (d : A) (l : list A) :
  map (fun i => nth i l d) (seq 0 (length l)) = l.
Proof.
  induction l as [|x l IH]; [reflexivity|].
  cbn [length seq map nth]. f_equal.
  rewrite <- seq_shift, map_map. exact IH.
Qed.

(** X9. For a table held by value, as [convert] passes it, the text is
    made of the header line, the separator line and the line of every
    later row normalized to the header length, joined by line feeds. *)
Theorem convert_to_markdown_table_values header tail :
  let rows := header :: tail in
  let n := length header in
  fst (convert_to_markdown_table (fst (alloc rows)) (snd (alloc rows)))
  = Str.join [LF]
      (markdown_line (map escape_markdown_chars header)
       :: markdown_line (repeat (str "---") n)
       :: map (fun row => markdown_line
                            (map escape_markdown_chars (Spec.normalize n row)))
              tail).
Proof.
  intros rows n. unfold alloc, rows. cbn [fst snd length seq].
  rewrite convert_to_markdown_table_lines, markdown_lines_spec.
  cbn [nth]. fold n. do 3 f_equal.
  rewrite <- seq_shift, map_map. cbn [nth].
  rewrite <- (map_nth_seq [] tail) at 2. rewrite map_map. reflexivity.
Qed.

(** ** Loader, writer and orchestration: outcomes and effects *)

(** What [convert] does once rows have been read: the outcome of the
    three steps of the writer. *)
Lemma convert_loaded W name out st header more :
  let r := read_csv W name (snd (Py.print (MsgReading name) st)) in
  let rows := header :: more in
  let filename :=
    match out with
    | None => stem W name ++ str ".md"
    | Some given => given
    end in
  let path := output_path W filename in
  let markdown :=
    fst (convert_to_markdown_table (fst (alloc rows)) (snd (alloc rows))) in
  let file_open := mkdir_ok W && writable W path in
  let done := file_open && write_ok W path markdown in
  fst r = inr rows ->
  let res := convert W name out st in
  fst res = inr (if done then Some path else None) /\
  written (snd res)
  = (if done then written st ++ [(path, markdown)] else written st) /\
  opened (snd res)
  = (if file_open then opened (snd r) ++ [(path, utf_8)]
     else opened (snd r)) /\
  stdout (snd res)
  = stdout st ++ [MsgReading name;
                  MsgLoaded (length rows) (length header);
                  if done then MsgDone path else MsgError OSError].
Proof.
  intros r rows filename path markdown file_open done Hrows res.
  subst res done file_open markdown path filename rows.
  destruct (read_csv_effects W name (snd (Py.print (MsgReading name) st)))
    as [Ho Hw].
  change (stdout (snd (Py.print (MsgReading name) st)))
    with (stdout st ++ [MsgReading name]) in Ho.
  change (written (snd (Py.print (MsgReading name) st)))
    with (written st) in Hw.
  unfold convert, Py.try_except, Py.bind.
  change (Py.print (MsgReading name) st)
    with (inr tt : exn + unit, snd (Py.print (MsgReading name) st)).
  cbn iota. fold r in Ho, Hw |- *.
  destruct r as [r0 st2]. cbn [fst snd] in *. subst r0.
  cbn zeta. unfold save_markdown, alloc, Py.bind, Py.log_open.
  cbn beta iota zeta. cbn [fst snd].
  destruct (mkdir_ok W); cbn [andb].
  - destruct (writable W _); cbn [andb].
    + destruct (write_ok W _ _);
        cbn [fst snd Py.print Py.write_file Py.ret Py.raise
             stdout written opened];
        rewrite Ho, Hw, <- ?app_assoc; repeat split.
    + cbn [fst snd Py.print Py.write_file Py.ret Py.raise
           stdout written opened];
        rewrite Ho, Hw, <- ?app_assoc; repeat split.
  - cbn [fst snd Py.print Py.write_file Py.ret Py.raise
         stdout written opened];
      rewrite Ho, Hw, <- ?app_assoc; repeat split.
Qed.

Lemma convert_returns_path W name out st path :
  fst (convert W name out st) = inr (Some path) ->
  exists header more,
    let rows := header :: more in
    let markdown :=
      fst (convert_to_markdown_table (fst (alloc rows)) (snd (alloc rows))) in
    fst (read_csv W name (snd (Py.print (MsgReading name) st))) = inr rows /\
    path = output_path W match out with
                         | None => stem W name ++ str ".md"
                         | Some given => given
                         end /\
    written (snd (convert W name out st)) = written st ++ [(path, markdown)].
Proof.
  intros Hp.
  destruct (fst (read_csv W name (snd (Py.print (MsgReading name) st))))
    as [e|[|header more]] eqn:Hr.
  - destruct (convert_no_rows W name out st) as (H & _).
    + rewrite Hr. discriminate.
    + rewrite H in Hp. discriminate Hp.
  - destruct (convert_no_rows W name out st) as (H & _).
    + rewrite Hr. discriminate.
    + rewrite H in Hp. discriminate Hp.
  - exists header, more. cbn zeta.
    destruct (@convert_loaded W name out st header more Hr)
      as (H1 & H2 & _).
    rewrite H1 in Hp.
    destruct (mkdir_ok W && writable W _ && write_ok W _ _);
      [|discriminate Hp].
    injection Hp as <-. repeat split. exact H2.
Qed.

(** X10. [convert] returns a path only after a conversion carried
    through: the file read had a row at least, the path is the output
    path (named after the stem of the input with [.md] unless a name is
    given), and the one text written is the table of the rows read, at
    that path. *)
Theorem convert_path_means_written W name out st path :
  fst (convert W name out st) = inr (Some path) ->
  exists header more,
    let rows := header :: more in
    let markdown :=
      fst (convert_to_markdown_table (fst (alloc rows)) (snd (alloc rows))) in
    fst (read_csv W name (snd (Py.print (MsgReading name) st))) = inr rows /\
    path = output_path W match out with
                         | None => stem W name ++ str ".md"
                         | Some given => given
                         end /\
    written (snd (convert W name out st)) = written st ++ [(path, markdown)].
Proof. exact (@convert_returns_path W name out st path). Qed.

Lemma convert_path_means_written_witness :
  exists header more,
    fst (read_csv (Sample.world Sample.comma_sniffer) (str "sjis.csv")
           (snd (Py.print (MsgReading (str "sjis.csv")) no_effects)))
    = inr (header :: more) /\
    str "out/table.md"
    = output_path (Sample.world Sample.comma_sniffer) (str "table.md") /\
    written (snd (convert (Sample.world Sample.comma_sniffer)
                    (str "sjis.csv") (Some (str "table.md")) no_effects))
    = [] ++ [(str "out/table.md",
              fst (convert_to_markdown_table
                     (fst (alloc (header :: more)))
                     (snd (alloc (header :: more)))))].
Proof.
  exact (@convert_path_means_written
           (Sample.world Sample.comma_sniffer) (str "sjis.csv")
           (Some (str "table.md")) no_effects (str "out/table.md") eq_refl).
Defined.

(** X11. [main] leaves with status 0 only after a conversion carried
    through: a file name was given, and the one text written is the
    table of the rows read from that file, at the output path named by
    the second argument or, without one, after the stem of the input. *)
Theorem main_success_means_written W argv st :
  fst (main W argv st) = inr 0 ->
  exists prog name more header rest,
    let out := match more with [] => None | given :: _ => Some given end in
    let path := output_path W match out with
                              | None => stem W name ++ str ".md"
                              | Some given => given
                              end in
    let rows := header :: rest in
    argv = prog :: name :: more /\
    fst (read_csv W name (snd (Py.print (MsgReading name) st))) = inr rows /\
    written (snd (main W argv st))
    = written st
      ++ [(path, fst (convert_to_markdown_table
                        (fst (alloc rows)) (snd (alloc rows))))].
Proof.
  intros H0.
  destruct argv as [|prog [|name more]]; try discriminate H0.
  rewrite main_run in H0 |- *. cbn [fst snd] in H0 |- *.
  set (out := match more with [] => None | given :: _ => Some given end) in *.
  destruct (fst (convert W name out st)) as [e|[path|]] eqn:Hc;
    try discriminate H0.
  destruct (@convert_returns_path W name out st path Hc)
    as (header & rest & Hr & Hp & Hw).
  exists prog, name, more, header, rest. cbn zeta. fold out.
  rewrite <- Hp. repeat split; assumption.
Qed.

Lemma main_success_means_written_witness :
  fst (main (Sample.world Sample.comma_sniffer)
         [str "csv2md.py"; str "utf8.csv"] no_effects) = inr 0 /\
  exists prog name more header rest,
    [str "csv2md.py"; str "utf8.csv"] = prog :: name :: more /\
    fst (read_csv (Sample.world Sample.comma_sniffer) name
           (snd (Py.print (MsgReading name) no_effects)))
    = inr (header :: rest) /\
    written (snd (main (Sample.world Sample.comma_sniffer)
                    [str "csv2md.py"; str "utf8.csv"] no_effects))
    = [] ++ [(output_path (Sample.world Sample.comma_sniffer)
                match match more with [] => None | given :: _ => Some given end
                with
                | None => stem (Sample.world Sample.comma_sniffer) name
                          ++ str ".md"
                | Some given => given
                end,
              fst (convert_to_markdown_table
                     (fst (alloc (header :: rest)))
                     (snd (alloc (header :: rest)))))].
Proof.
  split; [reflexivity|].
  exact (@main_success_means_written
           (Sample.world Sample.comma_sniffer)
           [str "csv2md.py"; str "utf8.csv"] no_effects eq_refl).
Defined.









(** X16. [read_csv] prints nothing and writes nothing; the only file it
    opens is the one it is asked for, once or twice. *)
Theorem read_csv_opens_only_input W name st :
  let r := read_csv W name st in
  stdout (snd r) = stdout st /\
  written (snd r) = written st /\
  exists new,
    opened (snd r) = opened st ++ new /\
    length new <= 2 /\
    forall path enc, In (path, enc) new -> path = name.
Proof.
  cbn zeta. destruct (read_csv_effects W name st) as [Ho Hw].
  split; [exact Ho|]. split; [exact Hw|].
  destruct (input_file W name) as [b|] eqn:Hb.
  - rewrite (read_csv_run W name st Hb).
    destruct (attempt W utf_8 b) as [[]|rows]; cbn [snd after_open opened];
      rewrite <- ?app_assoc;
      (eexists; split; [reflexivity|]); (split; [simpl; lia|]);
      intros path enc Hin; simpl in Hin;
      repeat (destruct Hin as [Hin|Hin]; [congruence|]); destruct Hin.
  - rewrite (read_csv_missing W name st Hb). exists [].
    rewrite app_nil_r. repeat split; [simpl; lia|]. intros ? ? [].
Qed.

Lemma skipn_length_app {A} (a b : list A) : skipn (length a) (a ++ b) = b.
Proof. induction a as [|x a IH]; [reflexivity|exact IH]. Qed.

(** X17. With a sniffer that gives up on an empty sample, as
    [csv.Sniffer] does, and a reader that yields no row only for a file
    whose sample is empty, [read_csv] never returns an empty table, and
    [convert] never prints the warning for an empty file. *)
Theorem empty_table_out_of_reach W name out st :
  sniff_delimiter W [] = None ->
  (forall enc b d, reader_rows W enc b d = inr [] ->
                   file_read W enc b 1024 = inr []) ->
  (forall st0, fst (read_csv W name st0) <> inr []) /\
  ~ In MsgWarningEmpty
       (skipn (length (stdout st)) (stdout (snd (convert W name out st)))).
Proof.
  intros Hsniff Hreader.
  assert (Hne : forall st0, fst (read_csv W name st0) <> inr [])
    by (intros st0; apply read_csv_never_empty; assumption).
  split; [exact Hne|].
  set (st1 := snd (Py.print (MsgReading name) st)).
  destruct (fst (read_csv W name st1)) as [e|[|header more]] eqn:Hr.
  - pose proof (convert_run W name out st) as H. cbn zeta in H.
    fold st1 in H. rewrite Hr in H. destruct H as (_ & _ & H).
    destruct (read_csv_effects W name st1) as [Ho _].
    rewrite H, Ho. change (stdout st1) with (stdout st ++ [MsgReading name]).
    rewrite <- app_assoc, skipn_length_app.
    simpl. intros [E|[E|[]]]; discriminate E.
  - exfalso. exact (Hne st1 Hr).
  - destruct (@convert_loaded W name out st header more Hr)
      as (_ & _ & _ & H).
    rewrite H, skipn_length_app.
    destruct (mkdir_ok W && writable W _ && write_ok W _ _); simpl;
      intros [E|[E|[E|[]]]]; discriminate E.
Qed.

Lemma split_from_nonempty sep s : forall skip cur,
  Str.split_from sep skip cur s <> [].
Proof.
  induction s as [|c s IH]; intros skip cur; simpl; [discriminate|].
  destruct skip; [|apply IH].
  destruct (Str.starts_with sep (c :: s)); [discriminate|apply IH].
Qed.

Lemma sample_reader_rows_empty sniffer enc b d :
  reader_rows (Sample.world sniffer) enc b d = inr [] ->
  file_read (Sample.world sniffer) enc b 1024 = inr [].
Proof.
  cbn [reader_rows file_read Sample.world].
  destruct (Sample.decode enc b) as [[|c t]|]; [reflexivity| |discriminate].
  cbn [Sample.parse]. intros H. injection H as H.
  apply map_eq_nil in H. exfalso.
  exact (split_from_nonempty [LF] (c :: t) 0 [] H).
Qed.

Lemma empty_table_out_of_reach_witness :
  fst (read_csv (Sample.world Sample.comma_sniffer) (str "empty.csv")
         no_effects)
  <> inr [].
Proof.
  exact (proj1 (@empty_table_out_of_reach
                  (Sample.world Sample.comma_sniffer) (str "empty.csv")
                  None no_effects eq_refl
                  (@sample_reader_rows_empty Sample.comma_sniffer))
               no_effects).
Defined.

(** ** [convert_to_markdown_table]: what the text does not depend on *)

Lemma normalize_firstn n row :
  Spec.normalize n (firstn n row) = Spec.normalize n row.
Proof.
  unfold Spec.normalize. rewrite length_firstn.
  destruct (Nat.ltb_spec (length row) n) as [Hlt|Hge].
  - rewrite firstn_all2 by lia.
    replace (Nat.min n (length row)) with (length row) by lia.
    destruct (Nat.ltb_spec (length row) n); [reflexivity|lia].
  - replace (Nat.min n (length row)) with n by lia.
    rewrite Nat.ltb_irrefl, firstn_firstn, Nat.min_id. reflexivity.
Qed.

(** X18. Fields beyond the header width never show: two tables with the
    same header whose data rows agree on their first [len(header)]
    fields give the same text. *)
Theorem extra_fields_ignored s s' h rest :
  s h = s' h ->
  (forall l, In l rest ->
             firstn (length (s h)) (s l) = firstn (length (s h)) (s' l)) ->
  fst (convert_to_markdown_table s (h :: rest))
  = fst (convert_to_markdown_table s' (h :: rest)).
Proof.
  intros Hh Hrows.
  rewrite !convert_to_markdown_table_lines, !markdown_lines_spec, <- Hh.
  do 3 f_equal. apply map_ext_in. intros l Hl.
  rewrite <- (normalize_firstn (length (s h)) (s l)), (Hrows l Hl).
  rewrite normalize_firstn. reflexivity.
Qed.

Lemma extra_fields_ignored_witness :
  fst (convert_to_markdown_table
         (fst (alloc [[str "a"]; [str "1"; str "dropped"]])) [0; 1])
  = fst (convert_to_markdown_table (fst (alloc [[str "a"]; [str "1"]])) [0; 1]).
Proof.
  apply (@extra_fields_ignored
           (fst (alloc [[str "a"]; [str "1"; str "dropped"]]))
           (fst (alloc [[str "a"]; [str "1"]])) 0 [1]).
  - reflexivity.
  - intros l [<-|[]]. reflexivity.
Defined.
